(** * Block index and active chain (chain.h)

    A shallow embedding of [CBlockIndex], [CDiskBlockIndex] and [CChain]
    from [src/chain.h], and the properties of the block-index
    specification that are stated about them.

    Conventions.
    - C++ integers are [Z]; conversions between widths are written out
      with [wrap] and [to_signed].
    - A pointer is an [option loc]: [None] is [NULL].  Block index
      entries live in a store [gmap loc CBlockIndex]; member functions
      that follow [pprev] take the store as an argument.
    - A call either returns ([Ret]) or stops with an [error]: a failed
      [assert], undefined behaviour (a dangling or null dereference, an
      index outside a vector), or a read past the end of a stream. *)

From Stdlib Require Import ZArith Lia List.
From stdpp Require Import base option list gmap sorting.

Local Open Scope Z_scope.

(** ** Outcomes of a call *)

Inductive error : Type :=
  | AssertionFailed
  | UndefinedBehaviour
  | EndOfStream.

Inductive outcome (A : Type) : Type :=
  | Ret (a : A)
  | Err (e : error).
Arguments Ret {A} a.
Arguments Err {A} e.

Definition bind {A B : Type} (c : outcome A) (k : A -> outcome B) : outcome B :=
  match c with
  | Ret a => k a
  | Err e => Err e
  end.

Declare Scope outcome_scope.
Delimit Scope outcome_scope with outcome.
Notation "'do' x <- c ; k" := (bind c (fun x => k))
  (at level 10, x name, c at level 100, k at level 200) : outcome_scope.
Notation "'do' ' pat <- c ; k" := (bind c (fun x => match x with pat => k end))
  (at level 10, pat pattern, c at level 100, k at level 200) : outcome_scope.
Local Open Scope outcome_scope.

(** [assert(c)] *)
Definition assert (c : bool) : outcome unit :=
  if c then Ret tt else Err AssertionFailed.

(** ** Machine integers *)

Definition wrap (w : Z) (z : Z) : Z := z mod 2 ^ w.

Definition to_signed (w : Z) (z : Z) : Z :=
  let u := wrap w z in if u <? 2 ^ (w - 1) then u else u - 2 ^ w.

(** Truth value of an integer used as a condition. *)
Definition truthy (z : Z) : bool := negb (z =? 0).

(** ** enum BlockStatus *)

Definition BLOCK_VALID_HEADER : Z := 1.
Definition BLOCK_VALID_TREE : Z := 2.
Definition BLOCK_VALID_TRANSACTIONS : Z := 3.
Definition BLOCK_VALID_CHAIN : Z := 4.
Definition BLOCK_VALID_SCRIPTS : Z := 5.
Definition BLOCK_VALID_MASK : Z :=
  Z.lor BLOCK_VALID_HEADER (Z.lor BLOCK_VALID_TREE
    (Z.lor BLOCK_VALID_TRANSACTIONS (Z.lor BLOCK_VALID_CHAIN BLOCK_VALID_SCRIPTS))).
Definition BLOCK_HAVE_DATA : Z := 8.
Definition BLOCK_HAVE_UNDO : Z := 16.
Definition BLOCK_HAVE_MASK : Z := Z.lor BLOCK_HAVE_DATA BLOCK_HAVE_UNDO.
Definition BLOCK_FAILED_VALID : Z := 32.
Definition BLOCK_FAILED_CHILD : Z := 64.
Definition BLOCK_FAILED_MASK : Z := Z.lor BLOCK_FAILED_VALID BLOCK_FAILED_CHILD.

(** The anonymous enum of [CBlockIndex]. *)
Definition BLOCK_PROOF_OF_STAKE : Z := Z.shiftl 1 0.
Definition BLOCK_STAKE_ENTROPY : Z := Z.shiftl 1 1.
Definition BLOCK_STAKE_MODIFIER : Z := Z.shiftl 1 2.

(** ** Types declared outside chain.h *)

Definition uint256 : Type := Z.
Definition loc : Type := positive.

(** Modelled from the spec: [COutPoint] is declared in
    primitives/transaction.h, which is not part of this header.  The
    specification only speaks of a stake outpoint and of its null value;
    an outpoint is a transaction hash with an output index, and the null
    outpoint has a zero hash and the all-ones 32-bit index. *)
Record COutPoint := mkCOutPoint { prevout_hash : uint256; prevout_n : Z }.

Definition COutPoint_null : COutPoint := mkCOutPoint 0 (wrap 32 (-1)).

(** ** class CBlockIndex *)

Record CBlockIndex := mkCBlockIndex {
  phashBlock : option uint256;
  pprev : option loc;
  nChainTrust : uint256;
  pskip : option loc;
  nHeight : Z;
  nFile : Z;
  nDataPos : Z;
  nUndoPos : Z;
  nTx : Z;
  nChainTx : Z;
  nStatus : Z;
  nMint : Z;
  nMoneySupply : Z;
  nFlags : Z;
  nStakeModifier : Z;
  prevoutStake : COutPoint;
  nStakeTime : Z;
  hashProof : uint256;
  POSDetailSet : bool;
  nVersion : Z;
  hashMerkleRoot : uint256;
  nTime : Z;
  nBits : Z;
  nNonce : Z;
  nSequenceId : Z
}.

Definition set_nHeight (v : Z) (b : CBlockIndex) : CBlockIndex :=
  mkCBlockIndex (phashBlock b) (pprev b) (nChainTrust b) (pskip b) v (nFile b)
    (nDataPos b) (nUndoPos b) (nTx b) (nChainTx b) (nStatus b) (nMint b)
    (nMoneySupply b) (nFlags b) (nStakeModifier b) (prevoutStake b)
    (nStakeTime b) (hashProof b) (POSDetailSet b) (nVersion b)
    (hashMerkleRoot b) (nTime b) (nBits b) (nNonce b) (nSequenceId b).

Definition set_nFile (v : Z) (b : CBlockIndex) : CBlockIndex :=
  mkCBlockIndex (phashBlock b) (pprev b) (nChainTrust b) (pskip b) (nHeight b)
    v (nDataPos b) (nUndoPos b) (nTx b) (nChainTx b) (nStatus b) (nMint b)
    (nMoneySupply b) (nFlags b) (nStakeModifier b) (prevoutStake b)
    (nStakeTime b) (hashProof b) (POSDetailSet b) (nVersion b)
    (hashMerkleRoot b) (nTime b) (nBits b) (nNonce b) (nSequenceId b).

Definition set_nDataPos (v : Z) (b : CBlockIndex) : CBlockIndex :=
  mkCBlockIndex (phashBlock b) (pprev b) (nChainTrust b) (pskip b) (nHeight b)
    (nFile b) v (nUndoPos b) (nTx b) (nChainTx b) (nStatus b) (nMint b)
    (nMoneySupply b) (nFlags b) (nStakeModifier b) (prevoutStake b)
    (nStakeTime b) (hashProof b) (POSDetailSet b) (nVersion b)
    (hashMerkleRoot b) (nTime b) (nBits b) (nNonce b) (nSequenceId b).

Definition set_nUndoPos (v : Z) (b : CBlockIndex) : CBlockIndex :=
  mkCBlockIndex (phashBlock b) (pprev b) (nChainTrust b) (pskip b) (nHeight b)
    (nFile b) (nDataPos b) v (nTx b) (nChainTx b) (nStatus b) (nMint b)
    (nMoneySupply b) (nFlags b) (nStakeModifier b) (prevoutStake b)
    (nStakeTime b) (hashProof b) (POSDetailSet b) (nVersion b)
    (hashMerkleRoot b) (nTime b) (nBits b) (nNonce b) (nSequenceId b).

Definition set_nTx (v : Z) (b : CBlockIndex) : CBlockIndex :=
  mkCBlockIndex (phashBlock b) (pprev b) (nChainTrust b) (pskip b) (nHeight b)
    (nFile b) (nDataPos b) (nUndoPos b) v (nChainTx b) (nStatus b) (nMint b)
    (nMoneySupply b) (nFlags b) (nStakeModifier b) (prevoutStake b)
    (nStakeTime b) (hashProof b) (POSDetailSet b) (nVersion b)
    (hashMerkleRoot b) (nTime b) (nBits b) (nNonce b) (nSequenceId b).

Definition set_nStatus (v : Z) (b : CBlockIndex) : CBlockIndex :=
  mkCBlockIndex (phashBlock b) (pprev b) (nChainTrust b) (pskip b) (nHeight b)
    (nFile b) (nDataPos b) (nUndoPos b) (nTx b) (nChainTx b) v (nMint b)
    (nMoneySupply b) (nFlags b) (nStakeModifier b) (prevoutStake b)
    (nStakeTime b) (hashProof b) (POSDetailSet b) (nVersion b)
    (hashMerkleRoot b) (nTime b) (nBits b) (nNonce b) (nSequenceId b).

Definition set_nMint (v : Z) (b : CBlockIndex) : CBlockIndex :=
  mkCBlockIndex (phashBlock b) (pprev b) (nChainTrust b) (pskip b) (nHeight b)
    (nFile b) (nDataPos b) (nUndoPos b) (nTx b) (nChainTx b) (nStatus b) v
    (nMoneySupply b) (nFlags b) (nStakeModifier b) (prevoutStake b)
    (nStakeTime b) (hashProof b) (POSDetailSet b) (nVersion b)
    (hashMerkleRoot b) (nTime b) (nBits b) (nNonce b) (nSequenceId b).

Definition set_nMoneySupply (v : Z) (b : CBlockIndex) : CBlockIndex :=
  mkCBlockIndex (phashBlock b) (pprev b) (nChainTrust b) (pskip b) (nHeight b)
    (nFile b) (nDataPos b) (nUndoPos b) (nTx b) (nChainTx b) (nStatus b)
    (nMint b) v (nFlags b) (nStakeModifier b) (prevoutStake b) (nStakeTime b)
    (hashProof b) (POSDetailSet b) (nVersion b) (hashMerkleRoot b) (nTime b)
    (nBits b) (nNonce b) (nSequenceId b).

Definition set_nFlags (v : Z) (b : CBlockIndex) : CBlockIndex :=
  mkCBlockIndex (phashBlock b) (pprev b) (nChainTrust b) (pskip b) (nHeight b)
    (nFile b) (nDataPos b) (nUndoPos b) (nTx b) (nChainTx b) (nStatus b)
    (nMint b) (nMoneySupply b) v (nStakeModifier b) (prevoutStake b)
    (nStakeTime b) (hashProof b) (POSDetailSet b) (nVersion b)
    (hashMerkleRoot b) (nTime b) (nBits b) (nNonce b) (nSequenceId b).

Definition set_nStakeModifier (v : Z) (b : CBlockIndex) : CBlockIndex :=
  mkCBlockIndex (phashBlock b) (pprev b) (nChainTrust b) (pskip b) (nHeight b)
    (nFile b) (nDataPos b) (nUndoPos b) (nTx b) (nChainTx b) (nStatus b)
    (nMint b) (nMoneySupply b) (nFlags b) v (prevoutStake b) (nStakeTime b)
    (hashProof b) (POSDetailSet b) (nVersion b) (hashMerkleRoot b) (nTime b)
    (nBits b) (nNonce b) (nSequenceId b).

Definition set_prevoutStake (v : COutPoint) (b : CBlockIndex) : CBlockIndex :=
  mkCBlockIndex (phashBlock b) (pprev b) (nChainTrust b) (pskip b) (nHeight b)
    (nFile b) (nDataPos b) (nUndoPos b) (nTx b) (nChainTx b) (nStatus b)
    (nMint b) (nMoneySupply b) (nFlags b) (nStakeModifier b) v (nStakeTime b)
    (hashProof b) (POSDetailSet b) (nVersion b) (hashMerkleRoot b) (nTime b)
    (nBits b) (nNonce b) (nSequenceId b).

Definition set_nStakeTime (v : Z) (b : CBlockIndex) : CBlockIndex :=
  mkCBlockIndex (phashBlock b) (pprev b) (nChainTrust b) (pskip b) (nHeight b)
    (nFile b) (nDataPos b) (nUndoPos b) (nTx b) (nChainTx b) (nStatus b)
    (nMint b) (nMoneySupply b) (nFlags b) (nStakeModifier b) (prevoutStake b)
    v (hashProof b) (POSDetailSet b) (nVersion b) (hashMerkleRoot b) (nTime b)
    (nBits b) (nNonce b) (nSequenceId b).

Definition set_hashProof (v : uint256) (b : CBlockIndex) : CBlockIndex :=
  mkCBlockIndex (phashBlock b) (pprev b) (nChainTrust b) (pskip b) (nHeight b)
    (nFile b) (nDataPos b) (nUndoPos b) (nTx b) (nChainTx b) (nStatus b)
    (nMint b) (nMoneySupply b) (nFlags b) (nStakeModifier b) (prevoutStake b)
    (nStakeTime b) v (POSDetailSet b) (nVersion b) (hashMerkleRoot b)
    (nTime b) (nBits b) (nNonce b) (nSequenceId b).

Definition set_POSDetailSet (v : bool) (b : CBlockIndex) : CBlockIndex :=
  mkCBlockIndex (phashBlock b) (pprev b) (nChainTrust b) (pskip b) (nHeight b)
    (nFile b) (nDataPos b) (nUndoPos b) (nTx b) (nChainTx b) (nStatus b)
    (nMint b) (nMoneySupply b) (nFlags b) (nStakeModifier b) (prevoutStake b)
    (nStakeTime b) (hashProof b) v (nVersion b) (hashMerkleRoot b) (nTime b)
    (nBits b) (nNonce b) (nSequenceId b).

Definition set_nVersion (v : Z) (b : CBlockIndex) : CBlockIndex :=
  mkCBlockIndex (phashBlock b) (pprev b) (nChainTrust b) (pskip b) (nHeight b)
    (nFile b) (nDataPos b) (nUndoPos b) (nTx b) (nChainTx b) (nStatus b)
    (nMint b) (nMoneySupply b) (nFlags b) (nStakeModifier b) (prevoutStake b)
    (nStakeTime b) (hashProof b) (POSDetailSet b) v (hashMerkleRoot b)
    (nTime b) (nBits b) (nNonce b) (nSequenceId b).

Definition set_hashMerkleRoot (v : uint256) (b : CBlockIndex) : CBlockIndex :=
  mkCBlockIndex (phashBlock b) (pprev b) (nChainTrust b) (pskip b) (nHeight b)
    (nFile b) (nDataPos b) (nUndoPos b) (nTx b) (nChainTx b) (nStatus b)
    (nMint b) (nMoneySupply b) (nFlags b) (nStakeModifier b) (prevoutStake b)
    (nStakeTime b) (hashProof b) (POSDetailSet b) (nVersion b) v (nTime b)
    (nBits b) (nNonce b) (nSequenceId b).

Definition set_nTime (v : Z) (b : CBlockIndex) : CBlockIndex :=
  mkCBlockIndex (phashBlock b) (pprev b) (nChainTrust b) (pskip b) (nHeight b)
    (nFile b) (nDataPos b) (nUndoPos b) (nTx b) (nChainTx b) (nStatus b)
    (nMint b) (nMoneySupply b) (nFlags b) (nStakeModifier b) (prevoutStake b)
    (nStakeTime b) (hashProof b) (POSDetailSet b) (nVersion b)
    (hashMerkleRoot b) v (nBits b) (nNonce b) (nSequenceId b).

Definition set_nBits (v : Z) (b : CBlockIndex) : CBlockIndex :=
  mkCBlockIndex (phashBlock b) (pprev b) (nChainTrust b) (pskip b) (nHeight b)
    (nFile b) (nDataPos b) (nUndoPos b) (nTx b) (nChainTx b) (nStatus b)
    (nMint b) (nMoneySupply b) (nFlags b) (nStakeModifier b) (prevoutStake b)
    (nStakeTime b) (hashProof b) (POSDetailSet b) (nVersion b)
    (hashMerkleRoot b) (nTime b) v (nNonce b) (nSequenceId b).

Definition set_nNonce (v : Z) (b : CBlockIndex) : CBlockIndex :=
  mkCBlockIndex (phashBlock b) (pprev b) (nChainTrust b) (pskip b) (nHeight b)
    (nFile b) (nDataPos b) (nUndoPos b) (nTx b) (nChainTx b) (nStatus b)
    (nMint b) (nMoneySupply b) (nFlags b) (nStakeModifier b) (prevoutStake b)
    (nStakeTime b) (hashProof b) (POSDetailSet b) (nVersion b)
    (hashMerkleRoot b) (nTime b) (nBits b) v (nSequenceId b).

(** [CBlockIndex::SetNull], which is all the default constructor does. *)
Definition SetNull : CBlockIndex :=
  {| phashBlock := None; pprev := None; pskip := None; nHeight := 0;
     nFile := 0; nDataPos := 0; nUndoPos := 0; nChainTrust := 0; nTx := 0;
     nChainTx := 0; nStatus := 0; nSequenceId := 0; nMint := 0;
     nMoneySupply := 0; nFlags := 0; nStakeModifier := 0; hashProof := 0;
     prevoutStake := COutPoint_null; nStakeTime := 0;
     nVersion := 0; hashMerkleRoot := 0; nTime := 0; nBits := 0; nNonce := 0;
     POSDetailSet := false |}.

(** [uint256 GetBlockHash() const { return *phashBlock; }] *)
Definition GetBlockHash (this : CBlockIndex) : outcome uint256 :=
  match phashBlock this with
  | Some h => Ret h
  | None => Err UndefinedBehaviour
  end.

Definition GetBlockTime (this : CBlockIndex) : Z := nTime this.

Definition GetPastTimeLimit (this : CBlockIndex) : Z := GetBlockTime this - 120.

(** *** Proof-of-stake flags *)

Definition IsProofOfWork (this : CBlockIndex) : outcome bool :=
  Ret (negb (truthy (Z.land (nFlags this) BLOCK_PROOF_OF_STAKE))).

Definition IsProofOfStake (this : CBlockIndex) : outcome bool :=
  do _ <- assert (bool_decide (POSDetailSet this = true));
  Ret (truthy (Z.land (nFlags this) BLOCK_PROOF_OF_STAKE)).

Definition SetProofOfStake (this : CBlockIndex) : CBlockIndex :=
  set_nFlags (Z.lor (nFlags this) BLOCK_PROOF_OF_STAKE) this.

Definition GetStakeEntropyBit (this : CBlockIndex) : Z :=
  Z.shiftr (Z.land (nFlags this) BLOCK_STAKE_ENTROPY) 1.

(** Returns the result and the entry after the call. *)
Definition SetStakeEntropyBit (this : CBlockIndex) (nEntropyBit : Z)
  : bool * CBlockIndex :=
  if 1 <? nEntropyBit then (false, this)
  else (true,
        set_nFlags
          (Z.lor (nFlags this)
             (if truthy nEntropyBit then BLOCK_STAKE_ENTROPY else 0)) this).

Definition GeneratedStakeModifier (this : CBlockIndex) : bool :=
  truthy (Z.land (nFlags this) BLOCK_STAKE_MODIFIER).


(** Modelled from the spec: [CBlock] is declared in primitives/block.h,
    which is not part of this header.  [SetPOSDetail] reads three things
    of the block: whether it is proof-of-stake, the previous output of the
    first input of its second transaction, and that transaction's time. *)
Record CBlock := mkCBlock {
  blk_IsProofOfStake : bool;
  blk_vtx1_vin0_prevout : COutPoint;
  blk_vtx1_nTime : Z
}.

Definition SetPOSDetail (this : CBlockIndex) (block : CBlock) : CBlockIndex :=
  let this :=
    if blk_IsProofOfStake block then
      let this := SetProofOfStake this in
      let this := set_prevoutStake (blk_vtx1_vin0_prevout block) this in
      set_nStakeTime (blk_vtx1_nTime block) this
    else
      let this := set_prevoutStake COutPoint_null this in
      set_nStakeTime 0 this in
  set_POSDetailSet true this.

(** *** Validity *)

(** [assert(!(nUpTo & ~BLOCK_VALID_MASK))]: only validity flags allowed. *)
Definition only_validity_flags (nUpTo : Z) : bool :=
  negb (truthy (Z.land nUpTo (Z.lnot BLOCK_VALID_MASK))).

Definition IsValid (this : CBlockIndex) (nUpTo : Z) : outcome bool :=
  do _ <- assert (only_validity_flags nUpTo);
  if truthy (Z.land (nStatus this) BLOCK_FAILED_MASK) then Ret false
  else Ret (nUpTo <=? Z.land (nStatus this) BLOCK_VALID_MASK).

(** Returns whether the validity was changed, and the entry after the call. *)
Definition RaiseValidity (this : CBlockIndex) (nUpTo : Z)
  : outcome (bool * CBlockIndex) :=
  do _ <- assert (only_validity_flags nUpTo);
  if truthy (Z.land (nStatus this) BLOCK_FAILED_MASK) then Ret (false, this)
  else if Z.land (nStatus this) BLOCK_VALID_MASK <? nUpTo then
    Ret (true,
         set_nStatus
           (Z.lor (Z.land (nStatus this) (Z.lnot BLOCK_VALID_MASK)) nUpTo) this)
  else Ret (false, this).

(** A run of [RaiseValidity] calls on one entry: the results in call
    order and the entry at the end. *)
Fixpoint RaiseValidity_seq (this : CBlockIndex) (calls : list Z)
  : outcome (list bool * CBlockIndex) :=
  match calls with
  | [] => Ret ([], this)
  | nUpTo :: rest =>
      do '(r, this') <- RaiseValidity this nUpTo;
      do '(rs, this'') <- RaiseValidity_seq this' rest;
      Ret (r :: rs, this'')
  end.

(** *** Median time past *)

Definition nMedianTimeSpan : nat := 11.

(** The loop of [GetMedianTimePast]
    [for (i = 0; i < nMedianTimeSpan && pindex; i++, pindex = pindex->pprev)
       *(--pbegin) = pindex->GetBlockTime();]
    with [left] the iterations that remain ([nMedianTimeSpan - i]).  The
    array [pmedian] is a list, [pbegin] an index into it. *)
Fixpoint median_collect (heap : gmap loc CBlockIndex) (left : nat)
    (pindex : option loc) (pmedian : list Z) (pbegin : nat)
  : outcome (list Z * nat) :=
  match left with
  | O => Ret (pmedian, pbegin)
  | S left' =>
      match pindex with
      | None => Ret (pmedian, pbegin)
      | Some a =>
          match heap !! a with
          | None => Err UndefinedBehaviour
          | Some node =>
              let pbegin := Nat.pred pbegin in
              median_collect heap left' (pprev node)
                (<[pbegin := GetBlockTime node]> pmedian) pbegin
          end
      end
  end.

(** [std::sort(first, last)] over a part of an array, in place. *)
Definition std_sort (a : list Z) (first last : nat) : list Z :=
  take first a ++ merge_sort Z.le (take (last - first) (drop first a))
    ++ drop last a.

(** [GetMedianTimePast]; [pmedian] is the array as it is found on the
    stack, before anything is written to it. *)
Definition GetMedianTimePast (heap : gmap loc CBlockIndex) (this : loc)
    (pmedian : list Z) : outcome Z :=
  let pend := nMedianTimeSpan in
  do '(pmedian, pbegin) <-
    median_collect heap nMedianTimeSpan (Some this) pmedian nMedianTimeSpan;
  let pmedian := std_sort pmedian pbegin pend in
  match pmedian !! (pbegin + (pend - pbegin) / 2)%nat with
  | Some t => Ret t
  | None => Err UndefinedBehaviour
  end.

(** ** class CDiskBlockIndex : public CBlockIndex *)

(** The block header built by [CDiskBlockIndex::GetBlockHash]. *)
Module CBlockHeader.
Record t := mk {
  nVersion : Z;
  hashPrevBlock : uint256;
  hashMerkleRoot : uint256;
  nTime : Z;
  nBits : Z;
  nNonce : Z
}.
End CBlockHeader.

(** The base-class part, then the two members the class adds. *)
Record CDiskBlockIndex := mkCDiskBlockIndex {
  base : CBlockIndex;
  blockHash : uint256;
  hashPrev : uint256
}.

(** Apply a change to the base-class part. *)
Definition upd (f : CBlockIndex -> CBlockIndex) (d : CDiskBlockIndex)
  : CDiskBlockIndex :=
  mkCDiskBlockIndex (f (base d)) (blockHash d) (hashPrev d).

Definition set_blockHash (v : uint256) (d : CDiskBlockIndex) : CDiskBlockIndex :=
  mkCDiskBlockIndex (base d) v (hashPrev d).

Definition set_hashPrev (v : uint256) (d : CDiskBlockIndex) : CDiskBlockIndex :=
  mkCDiskBlockIndex (base d) (blockHash d) v.

(** [CDiskBlockIndex()] *)
Definition CDiskBlockIndex_default : CDiskBlockIndex :=
  {| base := SetNull; hashPrev := 0; blockHash := 0 |}.

(** [explicit CDiskBlockIndex(CBlockIndex* pindex)]: the base is a copy of
    [*pindex]; [blockHash] is not mentioned by the constructor and is left
    as [uint256]'s own constructor makes it, zero. *)
Definition CDiskBlockIndex_of (heap : gmap loc CBlockIndex) (pindex : loc)
  : outcome CDiskBlockIndex :=
  match heap !! pindex with
  | None => Err UndefinedBehaviour
  | Some node =>
      do h <- match pprev node with
              | None => Ret 0
              | Some p =>
                  match heap !! p with
                  | None => Err UndefinedBehaviour
                  | Some parent => GetBlockHash parent
                  end
              end;
      Ret {| base := node; blockHash := 0; hashPrev := h |}
  end.

(** *** GetBlockHash *)

Section DiskHash.

(** [CBlockHeader::GetHash], declared in primitives/block.h. *)
Variable GetHash : CBlockHeader.t -> uint256.

(** What a call did: the value returned, the record after the call (the
    function writes [blockHash] through a [const_cast]), and the headers
    that were passed to [GetHash], in call order. *)
Record hash_call := mkHashCall {
  returned : uint256;
  after : CDiskBlockIndex;
  hashed : list CBlockHeader.t
}.

(** [fUseFastIndex] is the global flag, [adjusted_time] the value of
    [GetAdjustedTime()]. *)
Definition CDiskBlockIndex_GetBlockHash (fUseFastIndex : bool)
    (adjusted_time : Z) (this : CDiskBlockIndex) : hash_call :=
  if fUseFastIndex
     && (nTime (base this) <? adjusted_time - 24 * 60 * 60)
     && negb (blockHash this =? 0)
  then mkHashCall (blockHash this) this []
  else
    let block :=
      {| CBlockHeader.nVersion := nVersion (base this);
         CBlockHeader.hashPrevBlock := hashPrev this;
         CBlockHeader.hashMerkleRoot := hashMerkleRoot (base this);
         CBlockHeader.nTime := nTime (base this);
         CBlockHeader.nBits := nBits (base this);
         CBlockHeader.nNonce := nNonce (base this) |} in
    let this := set_blockHash (GetHash block) this in
    mkHashCall (blockHash this) this [block].

End DiskHash.

(** *** Serialization *)

(** What serialize.h provides for one type: how a value is written and how
    it is read back from the front of a stream of [tok]. *)
Record Codec (tok A : Type) := mkCodec {
  put : A -> list tok;
  get : list tok -> option (A * list tok)
}.
Arguments put {tok A} c x.
Arguments get {tok A} c s.

Definition codec_ok {tok A : Type} (c : Codec tok A) : Prop :=
  forall x rest, get c (put c x ++ rest) = Some (x, rest).

(** The encodings [SerializationOp] uses. *)
Record Wire (tok : Type) := mkWire {
  VARINT : Codec tok Z;
  ser_int : Codec tok Z;
  ser_uint : Codec tok Z;
  ser_uint64 : Codec tok Z;
  ser_uint256 : Codec tok uint256;
  ser_outpoint : Codec tok COutPoint
}.
Arguments VARINT {tok} w.
Arguments ser_int {tok} w.
Arguments ser_uint {tok} w.
Arguments ser_uint64 {tok} w.
Arguments ser_uint256 {tok} w.
Arguments ser_outpoint {tok} w.

Record wire_ok {tok : Type} (W : Wire tok) : Prop := mkWireOk {
  VARINT_ok : codec_ok (VARINT W);
  ser_int_ok : codec_ok (ser_int W);
  ser_uint_ok : codec_ok (ser_uint W);
  ser_uint64_ok : codec_ok (ser_uint64 W);
  ser_uint256_ok : codec_ok (ser_uint256 W);
  ser_outpoint_ok : codec_ok (ser_outpoint W)
}.

(** Reading one value; a stream that ends early throws. *)
Definition rd {tok A : Type} (c : Codec tok A) (s : list tok)
  : outcome (A * list tok) :=
  match get c s with
  | Some r => Ret r
  | None => Err EndOfStream
  end.

Section Serialization.

Context {tok : Type} (W : Wire tok).

(** The serialization-type flag of serialize.h. *)
Variable SER_GETHASH : Z.

(** [SerializationOp] with a writing [ser_action]: the tokens appended to
    the stream and the record after the call ([POSDetailSet] is written
    through a [const_cast]).  The parameter [nVersion] of the source hides
    the member of that name; it is [nVersionPar] here, and the member, the
    source's [this->nVersion], is [nVersion (base this)]. *)
Definition Serialize (nType nVersionPar : Z) (this : CDiskBlockIndex)
  : outcome (list tok * CDiskBlockIndex) :=
  let s := [] in
  let s := if negb (truthy (Z.land nType SER_GETHASH))
           then s ++ put (VARINT W) nVersionPar else s in
  let s := s ++ put (VARINT W) (nHeight (base this)) in
  let s := s ++ put (VARINT W) (nStatus (base this)) in
  let s := s ++ put (VARINT W) (nTx (base this)) in
  let s := if truthy (Z.land (nStatus (base this))
                        (Z.lor BLOCK_HAVE_DATA BLOCK_HAVE_UNDO))
           then s ++ put (VARINT W) (nFile (base this)) else s in
  let s := if truthy (Z.land (nStatus (base this)) BLOCK_HAVE_DATA)
           then s ++ put (VARINT W) (nDataPos (base this)) else s in
  let s := if truthy (Z.land (nStatus (base this)) BLOCK_HAVE_UNDO)
           then s ++ put (VARINT W) (nUndoPos (base this)) else s in
  let s := s ++ put (VARINT W) (nMint (base this)) in
  let s := s ++ put (VARINT W) (nMoneySupply (base this)) in
  let s := s ++ put (ser_uint W) (nFlags (base this)) in
  let s := s ++ put (ser_uint64 W) (nStakeModifier (base this)) in
  let this := upd (set_POSDetailSet true) this in
  do pos <- IsProofOfStake (base this);
  let s := if pos
           then (s ++ put (ser_outpoint W) (prevoutStake (base this)))
                  ++ put (ser_uint W) (nStakeTime (base this))
           else s in
  let s := s ++ put (ser_uint256 W) (hashProof (base this)) in
  let s := s ++ put (ser_int W) (nVersion (base this)) in
  let s := s ++ put (ser_uint256 W) (hashPrev this) in
  let s := s ++ put (ser_uint256 W) (hashMerkleRoot (base this)) in
  let s := s ++ put (ser_uint W) (nTime (base this)) in
  let s := s ++ put (ser_uint W) (nBits (base this)) in
  let s := s ++ put (ser_uint W) (nNonce (base this)) in
  let s := s ++ put (ser_uint256 W) (blockHash this) in
  Ret (s, this).

(** [SerializationOp] with a reading [ser_action]: [this] is the record
    read into, [s] the stream; the record after the call and what is left
    of the stream. *)
Definition Unserialize (nType : Z) (this : CDiskBlockIndex) (s : list tok)
  : outcome (CDiskBlockIndex * list tok) :=
  do '(_, s) <- (if negb (truthy (Z.land nType SER_GETHASH))
                 then rd (VARINT W) s else Ret (0, s));
  do '(v, s) <- rd (VARINT W) s;
  let this := upd (set_nHeight v) this in
  do '(v, s) <- rd (VARINT W) s;
  let this := upd (set_nStatus v) this in
  do '(v, s) <- rd (VARINT W) s;
  let this := upd (set_nTx v) this in
  do '(this, s) <-
    (if truthy (Z.land (nStatus (base this))
                  (Z.lor BLOCK_HAVE_DATA BLOCK_HAVE_UNDO))
     then do '(v, s) <- rd (VARINT W) s; Ret (upd (set_nFile v) this, s)
     else Ret (this, s));
  do '(this, s) <-
    (if truthy (Z.land (nStatus (base this)) BLOCK_HAVE_DATA)
     then do '(v, s) <- rd (VARINT W) s; Ret (upd (set_nDataPos v) this, s)
     else Ret (this, s));
  do '(this, s) <-
    (if truthy (Z.land (nStatus (base this)) BLOCK_HAVE_UNDO)
     then do '(v, s) <- rd (VARINT W) s; Ret (upd (set_nUndoPos v) this, s)
     else Ret (this, s));
  do '(v, s) <- rd (VARINT W) s;
  let this := upd (set_nMint v) this in
  do '(v, s) <- rd (VARINT W) s;
  let this := upd (set_nMoneySupply v) this in
  do '(v, s) <- rd (ser_uint W) s;
  let this := upd (set_nFlags v) this in
  do '(v, s) <- rd (ser_uint64 W) s;
  let this := upd (set_nStakeModifier v) this in
  let this := upd (set_POSDetailSet true) this in
  do pos <- IsProofOfStake (base this);
  do '(this, s) <-
    (if pos
     then do '(v, s) <- rd (ser_outpoint W) s;
          let this := upd (set_prevoutStake v) this in
          do '(v, s) <- rd (ser_uint W) s;
          Ret (upd (set_nStakeTime v) this, s)
     else
       let this := upd (set_prevoutStake COutPoint_null) this in
       Ret (upd (set_nStakeTime 0) this, s));
  do '(v, s) <- rd (ser_uint256 W) s;
  let this := upd (set_hashProof v) this in
  do '(v, s) <- rd (ser_int W) s;
  let this := upd (set_nVersion v) this in
  do '(v, s) <- rd (ser_uint256 W) s;
  let this := set_hashPrev v this in
  do '(v, s) <- rd (ser_uint256 W) s;
  let this := upd (set_hashMerkleRoot v) this in
  do '(v, s) <- rd (ser_uint W) s;
  let this := upd (set_nTime v) this in
  do '(v, s) <- rd (ser_uint W) s;
  let this := upd (set_nBits v) this in
  do '(v, s) <- rd (ser_uint W) s;
  let this := upd (set_nNonce v) this in
  do '(v, s) <- rd (ser_uint256 W) s;
  let this := set_blockHash v this in
  Ret (this, s).

End Serialization.

(** A stream of integers, one token per scalar: the plainest encoding that
    reads back what it wrote. *)
Definition token_get (s : list Z) : option (Z * list Z) :=
  match s with
  | x :: rest => Some (x, rest)
  | [] => None
  end.

Definition token_codec : Codec Z Z := mkCodec Z Z (fun x => [x]) token_get.

Definition token_outpoint : Codec Z COutPoint :=
  mkCodec Z COutPoint
    (fun o => [prevout_hash o; prevout_n o])
    (fun s => match s with
              | h :: i :: rest => Some (mkCOutPoint h i, rest)
              | _ => None
              end).

Definition token_wire : Wire Z :=
  mkWire Z token_codec token_codec token_codec token_codec token_codec
    token_outpoint.

(** ** class CChain *)

(** [std::vector<CBlockIndex*> vChain] *)
Definition CChain : Type := list (option loc).

(** [size_t] is 64 bits wide, [int] 32. *)
Definition size_t_bits : Z := 64.
Definition int_bits : Z := 32.

Definition vector_size {A : Type} (v : list A) : Z := Z.of_nat (length v).

(** [std::vector::operator[]]: no bounds check; an index that is not below
    the size is undefined behaviour. *)
Definition vector_at {A : Type} (v : list A) (i : Z) : outcome A :=
  if (0 <=? i) && (i <? vector_size v) then
    match v !! Z.to_nat i with
    | Some x => Ret x
    | None => Err UndefinedBehaviour
    end
  else Err UndefinedBehaviour.

Definition Genesis (c : CChain) : outcome (option loc) :=
  if 0 <? vector_size c then vector_at c 0 else Ret None.

Definition Tip (c : CChain) : outcome (option loc) :=
  if 0 <? vector_size c
  then vector_at c (wrap size_t_bits (vector_size c - 1))
  else Ret None.

(** [CChain::operator[]] *)
Definition CChain_at (c : CChain) (nHeight : Z) : outcome (option loc) :=
  if (nHeight <? 0) || (to_signed int_bits (vector_size c) <=? nHeight)
  then Ret None
  else vector_at c (wrap size_t_bits nHeight).

(** [operator==(const CChain&, const CChain&)] *)
Definition CChain_eq (a b : CChain) : outcome bool :=
  if vector_size a =? vector_size b then
    do x <- vector_at a (wrap size_t_bits (vector_size a - 1));
    do y <- vector_at b (wrap size_t_bits (vector_size b - 1));
    Ret (bool_decide (x = y))
  else Ret false.

Definition Height (c : CChain) : Z :=
  to_signed int_bits (wrap size_t_bits (vector_size c - 1)).

(** ** struct CDiskBlockPos *)

Module CDiskBlockPos.

Record t := mk {
  nFile : Z;
  nPos : Z
}.

(** [SetNull], which is all the default constructor does. *)
Definition SetNull : t := {| nFile := -1; nPos := 0 |}.

Definition IsNull (this : t) : bool := nFile this =? -1.

(** [operator==] and [operator!=] *)
Definition eq (a b : t) : bool := (nFile a =? nFile b) && (nPos a =? nPos b).

Definition neq (a b : t) : bool := negb (eq a b).

Section Serialization.

Context {tok : Type} (W : Wire tok).

(** [SerializationOp] with a writing [ser_action]: the tokens appended to
    the stream. *)
Definition Serialize (this : t) : list tok :=
  let s := [] in
  let s := s ++ put (VARINT W) (nFile this) in
  let s := s ++ put (VARINT W) (nPos this) in
  s.

(** [SerializationOp] with a reading [ser_action]: [this] is the position
    read into. *)
Definition Unserialize (this : t) (s : list tok) : outcome (t * list tok) :=
  do '(v, s) <- rd (VARINT W) s;
  let this := {| nFile := v; nPos := nPos this |} in
  do '(v, s) <- rd (VARINT W) s;
  let this := {| nFile := nFile this; nPos := v |} in
  Ret (this, s).

End Serialization.

End CDiskBlockPos.

(** ** More of class CBlockIndex *)

(** [CBlockIndex(const CBlockHeader& block)] *)
Definition CBlockIndex_of_header (block : CBlockHeader.t) : CBlockIndex :=
  let this := SetNull in
  let this := set_nVersion (CBlockHeader.nVersion block) this in
  let this := set_hashMerkleRoot (CBlockHeader.hashMerkleRoot block) this in
  let this := set_nTime (CBlockHeader.nTime block) this in
  let this := set_nBits (CBlockHeader.nBits block) this in
  set_nNonce (CBlockHeader.nNonce block) this.

Definition GetBlockPos (this : CBlockIndex) : CDiskBlockPos.t :=
  let ret := CDiskBlockPos.SetNull in
  if truthy (Z.land (nStatus this) BLOCK_HAVE_DATA)
  then {| CDiskBlockPos.nFile := nFile this;
          CDiskBlockPos.nPos := nDataPos this |}
  else ret.

Definition GetUndoPos (this : CBlockIndex) : CDiskBlockPos.t :=
  let ret := CDiskBlockPos.SetNull in
  if truthy (Z.land (nStatus this) BLOCK_HAVE_UNDO)
  then {| CDiskBlockPos.nFile := nFile this;
          CDiskBlockPos.nPos := nUndoPos this |}
  else ret.

(** [GetBlockHeader].  Modelled from the spec: the header a
    default-constructed [CBlockHeader] holds is declared in
    primitives/block.h; an entry without a parent gets the zero previous
    hash. *)
Definition GetBlockHeader (heap : gmap loc CBlockIndex) (this : CBlockIndex)
  : outcome CBlockHeader.t :=
  do hashPrevBlock <-
    match pprev this with
    | None => Ret 0
    | Some p =>
        match heap !! p with
        | None => Err UndefinedBehaviour
        | Some parent => GetBlockHash parent
        end
    end;
  Ret {| CBlockHeader.nVersion := nVersion this;
         CBlockHeader.hashPrevBlock := hashPrevBlock;
         CBlockHeader.hashMerkleRoot := hashMerkleRoot this;
         CBlockHeader.nTime := nTime this;
         CBlockHeader.nBits := nBits this;
         CBlockHeader.nNonce := nNonce this |}.

(** The values [ToString] hands to [strprintf], in the order of the
    format string.  The formatting itself ([strprintf], [FormatMoney] and
    the [ToString] of hashes and outpoints) is declared outside chain.h and
    is a parameter. *)
Record ToString_args := mkToStringArgs {
  arg_pprev : option loc;
  arg_nHeight : Z;
  arg_nMint : Z;
  arg_nMoneySupply : Z;
  arg_modifier_generated : bool;
  arg_entropy_bit : Z;
  arg_proof_of_stake : bool;
  arg_nStakeModifier : Z;
  arg_hashProof : uint256;
  arg_prevoutStake : COutPoint;
  arg_nStakeTime : Z;
  arg_hashMerkleRoot : uint256;
  arg_hashBlock : uint256
}.

(** The order in which the two arguments that can stop the call are
    evaluated; the language leaves it to the compiler. *)
Inductive arg_order : Type :=
  | StakeStatusFirst
  | BlockHashFirst.

Section ToString.

Context {string : Type} (strprintf : ToString_args -> string).

(** [CBlockIndex::ToString].  The arguments are evaluated before the
    string is built, in an order the compiler chooses; two of them can
    stop the call, the assertion of [IsProofOfStake] and the dereference
    of [phashBlock] in [GetBlockHash]. *)
Definition ToString (order : arg_order) (this : CBlockIndex)
  : outcome string :=
  do '(pos, hashBlock) <-
    match order with
    | StakeStatusFirst =>
        do pos <- IsProofOfStake this;
        do hashBlock <- GetBlockHash this;
        Ret (pos, hashBlock)
    | BlockHashFirst =>
        do hashBlock <- GetBlockHash this;
        do pos <- IsProofOfStake this;
        Ret (pos, hashBlock)
    end;
  Ret (strprintf
         {| arg_pprev := pprev this;
            arg_nHeight := nHeight this;
            arg_nMint := nMint this;
            arg_nMoneySupply := nMoneySupply this;
            arg_modifier_generated := GeneratedStakeModifier this;
            arg_entropy_bit := GetStakeEntropyBit this;
            arg_proof_of_stake := pos;
            arg_nStakeModifier := nStakeModifier this;
            arg_hashProof := hashProof this;
            arg_prevoutStake := prevoutStake this;
            arg_nStakeTime := nStakeTime this;
            arg_hashMerkleRoot := hashMerkleRoot this;
            arg_hashBlock := hashBlock |}).

End ToString.

(** ** More of class CChain *)

(** [Contains]; a null [pindex] is dereferenced. *)
Definition Contains (heap : gmap loc CBlockIndex) (c : CChain)
    (pindex : option loc) : outcome bool :=
  match pindex with
  | None => Err UndefinedBehaviour
  | Some a =>
      match heap !! a with
      | None => Err UndefinedBehaviour
      | Some node =>
          do p <- CChain_at c (nHeight node);
          Ret (bool_decide (p = pindex))
      end
  end.

(** [Next]; [pindex->nHeight + 1] is an [int] addition, which must not
    overflow. *)
Definition Next (heap : gmap loc CBlockIndex) (c : CChain)
    (pindex : option loc) : outcome (option loc) :=
  do inside <- Contains heap c pindex;
  if inside then
    match pindex ≫= (heap !!.) with
    | None => Err UndefinedBehaviour
    | Some node =>
        if nHeight node + 1 <? 2 ^ (int_bits - 1)
        then CChain_at c (nHeight node + 1)
        else Err UndefinedBehaviour
    end
  else Ret None.

(** * Vocabulary of the properties *)

(** ** Validity stage and failure marker *)

(** The validity stage stored in an entry, and its failure marker. *)
Definition stage (this : CBlockIndex) : Z :=
  Z.land (nStatus this) BLOCK_VALID_MASK.

Definition failed (this : CBlockIndex) : Prop :=
  Z.land (nStatus this) BLOCK_FAILED_MASK <> 0.

(** The five stages a caller can name. *)
Definition validity_stages : list Z :=
  [BLOCK_VALID_HEADER; BLOCK_VALID_TREE; BLOCK_VALID_TRANSACTIONS;
   BLOCK_VALID_CHAIN; BLOCK_VALID_SCRIPTS].

(** An entry that reached the transactions stage and was then marked as
    failed. *)
Definition failed_entry : CBlockIndex :=
  set_nStatus (Z.lor BLOCK_VALID_TRANSACTIONS BLOCK_FAILED_VALID) SetNull.

(** The entry [RaiseValidity] leaves behind when it advances to [nUpTo]. *)
Definition raised (this : CBlockIndex) (nUpTo : Z) : CBlockIndex :=
  set_nStatus
    (Z.lor (Z.land (nStatus this) (Z.lnot BLOCK_VALID_MASK)) nUpTo) this.

(** An entry whose header has been checked and nothing else. *)
Definition header_entry : CBlockIndex :=
  set_nStatus BLOCK_VALID_HEADER SetNull.

(** ** Stake flags *)

(** An entry whose entropy bit has been set. *)
Definition entropy_entry : CBlockIndex := snd (SetStakeEntropyBit SetNull 1).

(** ** Median time past *)

(** The entry at [p] followed by its ancestors along [pprev], [k] entries
    at most; [None] when a pointer on the way does not resolve. *)
Fixpoint ancestry (heap : gmap loc CBlockIndex) (k : nat) (p : option loc)
  : option (list CBlockIndex) :=
  match k with
  | O => Some []
  | S k' =>
      match p with
      | None => Some []
      | Some a =>
          node ← heap !! a;
          rest ← ancestry heap k' (pprev node);
          Some (node :: rest)
      end
  end.

(** Every [pprev] stored in the heap points into the heap. *)
Definition heap_closed (heap : gmap loc CBlockIndex) : Prop :=
  forall a node p, heap !! a = Some node -> pprev node = Some p ->
    is_Some (heap !! p).

(** A linear chain with the given block times, oldest first, stored at
    addresses 1, 2, ...; used to state examples. *)
Fixpoint chain_of_times (times : list Z) (next : positive)
    (prev : option loc) (heap : gmap loc CBlockIndex)
  : gmap loc CBlockIndex * option loc :=
  match times with
  | [] => (heap, prev)
  | t :: rest =>
      let node :=
        mkCBlockIndex None prev 0 None 0 0 0 0 0 0 0 0 0 0 0 COutPoint_null 0
          0 false 0 0 t 0 0 0 in
      chain_of_times rest (Pos.succ next) (Some next) (<[next := node]> heap)
  end.

(** The [i]-th ancestor of the entry at [p], counting the entry itself
    as number 0. *)
Fixpoint walk (heap : gmap loc CBlockIndex) (p : option loc) (i : nat)
  : option CBlockIndex :=
  match p with
  | None => None
  | Some a =>
      match heap !! a with
      | None => None
      | Some node =>
          match i with
          | O => Some node
          | S i' => walk heap (pprev node) i'
          end
      end
  end.

(** The chain of the specification's example, and its tip. *)
Definition example_times : list Z :=
  [100; 103; 107; 110; 111; 112; 115; 120; 121; 130; 140].

Definition example_heap : gmap loc CBlockIndex :=
  fst (chain_of_times example_times 1%positive None ∅).

Definition example_tip : loc := 11%positive.

(** The same chain on top of two older blocks: they are out of reach. *)
Definition long_heap : gmap loc CBlockIndex :=
  fst (chain_of_times (1 :: 2 :: example_times) 1%positive None ∅).

(** The eleven entries reached from the tip of the example chain. *)
Definition example_nodes : list CBlockIndex :=
  Eval vm_compute in
    default [] (ancestry example_heap nMedianTimeSpan (Some example_tip)).

(** ** Record hash and active chain *)

(** The header a record stands for: version, previous hash, merkle root,
    time, bits and nonce. *)
Definition header_of (this : CDiskBlockIndex) : CBlockHeader.t :=
  CBlockHeader.mk (nVersion (base this)) (hashPrev this)
    (hashMerkleRoot (base this)) (nTime (base this)) (nBits (base this))
    (nNonce (base this)).

(** The condition of the fast path. *)
Definition cache_hit (fUseFastIndex : bool) (adjusted_time : Z)
    (this : CDiskBlockIndex) : Prop :=
  fUseFastIndex = true
  /\ nTime (base this) < adjusted_time - 86400
  /\ blockHash this <> 0.

(** A chain of three entries. *)
Definition three_chain : CChain := [Some 1; Some 2; Some 3]%positive.

(** ** Disk record round trip *)

(** The hash the constructor from a [CBlockIndex] stores for the parent: zero
    without a parent, else the hash the parent entry points to. *)
Definition parent_hash (heap : gmap loc CBlockIndex) (node : CBlockIndex)
  : option uint256 :=
  match pprev node with
  | None => Some 0
  | Some p => heap !! p ≫= phashBlock
  end.

(** The conditions on which fields are on the wire. *)
Definition has_file (b : CBlockIndex) : bool :=
  truthy (Z.land (nStatus b) (Z.lor BLOCK_HAVE_DATA BLOCK_HAVE_UNDO)).
Definition has_data (b : CBlockIndex) : bool :=
  truthy (Z.land (nStatus b) BLOCK_HAVE_DATA).
Definition has_undo (b : CBlockIndex) : bool :=
  truthy (Z.land (nStatus b) BLOCK_HAVE_UNDO).
Definition pos_bit (b : CBlockIndex) : bool :=
  truthy (Z.land (nFlags b) BLOCK_PROOF_OF_STAKE).

(** What reading the encoding of [r] into the record [t] leaves in [t]:
    the fields on the wire come from [r], [POSDetailSet] is true, the
    stake fields of a record without the proof-of-stake bit are null and
    zero, and every field that is not on the wire is still [t]'s. *)
Definition decoded (r t : CDiskBlockIndex) : CDiskBlockIndex :=
  {| base :=
       {| phashBlock := phashBlock (base t);
          pprev := pprev (base t);
          nChainTrust := nChainTrust (base t);
          pskip := pskip (base t);
          nHeight := nHeight (base r);
          nFile := if has_file (base r) then nFile (base r)
                   else nFile (base t);
          nDataPos := if has_data (base r) then nDataPos (base r)
                      else nDataPos (base t);
          nUndoPos := if has_undo (base r) then nUndoPos (base r)
                      else nUndoPos (base t);
          nTx := nTx (base r);
          nChainTx := nChainTx (base t);
          nStatus := nStatus (base r);
          nMint := nMint (base r);
          nMoneySupply := nMoneySupply (base r);
          nFlags := nFlags (base r);
          nStakeModifier := nStakeModifier (base r);
          prevoutStake := if pos_bit (base r) then prevoutStake (base r)
                          else COutPoint_null;
          nStakeTime := if pos_bit (base r) then nStakeTime (base r) else 0;
          hashProof := hashProof (base r);
          POSDetailSet := true;
          nVersion := nVersion (base r);
          hashMerkleRoot := hashMerkleRoot (base r);
          nTime := nTime (base r);
          nBits := nBits (base r);
          nNonce := nNonce (base r);
          nSequenceId := nSequenceId (base t) |};
     blockHash := blockHash r;
     hashPrev := hashPrev r |}.

(** The fields that are always on the wire. *)
Definition same_wire_fields (d n : CBlockIndex) : Prop :=
  nHeight d = nHeight n /\ nStatus d = nStatus n /\ nTx d = nTx n
  /\ nMint d = nMint n /\ nMoneySupply d = nMoneySupply n
  /\ nFlags d = nFlags n /\ nStakeModifier d = nStakeModifier n
  /\ hashProof d = hashProof n /\ nVersion d = nVersion n
  /\ hashMerkleRoot d = hashMerkleRoot n /\ nTime d = nTime n
  /\ nBits d = nBits n /\ nNonce d = nNonce n.

(** The fields that are never on the wire, [POSDetailSet] apart. *)
Definition same_memory_fields (d t : CBlockIndex) : Prop :=
  phashBlock d = phashBlock t /\ pprev d = pprev t /\ pskip d = pskip t
  /\ nChainTrust d = nChainTrust t /\ nChainTx d = nChainTx t
  /\ nSequenceId d = nSequenceId t.

(** The disk positions: on the wire under the availability flags of the
    status word, otherwise left as they are in the record read into. *)
Definition disk_fields_decoded (d n t : CBlockIndex) : Prop :=
  nFile d = (if has_file n then nFile n else nFile t)
  /\ nDataPos d = (if has_data n then nDataPos n else nDataPos t)
  /\ nUndoPos d = (if has_undo n then nUndoPos n else nUndoPos t).

Definition stake_fields_decoded (d n : CBlockIndex) : Prop :=
  (pos_bit n = true ->
     prevoutStake d = prevoutStake n /\ nStakeTime d = nStakeTime n)
  /\ (pos_bit n = false ->
        prevoutStake d = COutPoint_null /\ nStakeTime d = 0).

(** Encoding the entry at [pindex] and decoding the stream into [t]. *)
Definition round_trip {tok : Type} (W : Wire tok) (SER_GETHASH : Z)
    (nType nVersionPar : Z) (heap : gmap loc CBlockIndex) (pindex : loc)
    (t : CDiskBlockIndex) (rest : list tok)
  : outcome (CDiskBlockIndex * list tok) :=
  do r <- CDiskBlockIndex_of heap pindex;
  do '(w, _) <- Serialize W SER_GETHASH nType nVersionPar r;
  Unserialize W SER_GETHASH nType t (w ++ rest).

(** A genesis block and a block at height 1 on top of it, as they are in
    memory once their transactions are connected: each has its hash, its
    chain trust, its chain transaction count and its sequence id. *)
Definition genesis_node : CBlockIndex :=
  mkCBlockIndex (Some 111) None 1 None 0 0 0 0 1 1
    (Z.lor BLOCK_VALID_SCRIPTS BLOCK_HAVE_DATA) 0 0 0 0 COutPoint_null 0 0
    true 1 10 1000 0 0 1.

Definition child_node : CBlockIndex :=
  mkCBlockIndex (Some 222) (Some 1%positive) 5 (Some 1%positive) 1 0 400 0
    1 2 (Z.lor BLOCK_VALID_SCRIPTS BLOCK_HAVE_DATA) 0 0 0 0 COutPoint_null 0
    0 true 1 20 1060 0 0 7.

Definition two_block_heap : gmap loc CBlockIndex :=
  <[2%positive := child_node]> (<[1%positive := genesis_node]> ∅).

(** The flag values of serialize.h used in the examples. *)
Definition SER_DISK_value : Z := Z.shiftl 1 1.
Definition SER_GETHASH_value : Z := Z.shiftl 1 2.

(** ** Disk positions *)

(** A position in file 3 at offset 4096. *)
Definition some_pos : CDiskBlockPos.t := CDiskBlockPos.mk 3 4096.

(** An entry whose block and undo data are on disk, in file 2, and whose
    tree position has been checked. *)
Definition stored_entry : CBlockIndex :=
  mkCBlockIndex (Some 505) None 0 None 0 2 4096 128 1 0
    (Z.lor BLOCK_VALID_TREE BLOCK_HAVE_MASK) 0 0 0 0 COutPoint_null 0 0
    false 1 0 0 0 0 0.

(** ** Well-formed chains *)

(** The shape [SetTip] gives a chain: the entry at index [h] is a live
    entry of height [h], and the entry below it is its [pprev]. *)
Definition chain_wf (heap : gmap loc CBlockIndex) (c : CChain) : Prop :=
  forall (h : nat) (p : option loc), c !! h = Some p ->
    exists a node,
      p = Some a /\ heap !! a = Some node /\ nHeight node = Z.of_nat h
      /\ (forall h', h = S h' -> c !! h' = Some (pprev node)).

(** An entry at the given height with the given parent and hash. *)
Definition entry_at (height : Z) (prev : option loc) (h : uint256)
  : CBlockIndex :=
  mkCBlockIndex (Some h) prev 0 None height 0 0 0 0 0 0 0 0 0 0
    COutPoint_null 0 0 false 0 0 0 0 0 0.

(** Three linked entries at addresses 1, 2 and 3, and a fourth entry at
    height 1 that forks off the first. *)
Definition forked_heap : gmap loc CBlockIndex :=
  <[4%positive := entry_at 1 (Some 1%positive) 404]>
    (<[3%positive := entry_at 2 (Some 2%positive) 303]>
       (<[2%positive := entry_at 1 (Some 1%positive) 202]>
          (<[1%positive := entry_at 0 None 101]> ∅))).

(** ** Stake flags *)


(** Two chains of the same length over [forked_heap] that part at
    height 1. *)
Definition main_branch : CChain := [Some 1; Some 2]%positive.
Definition fork_branch : CChain := [Some 1; Some 4]%positive.

(** ** Records on the wire *)

(** The record of [child_node], the same record with the detail flag
    cleared, and the stream both are written to. *)
Definition child_record : CDiskBlockIndex :=
  mkCDiskBlockIndex child_node 0 111.

Definition unmarked_record : CDiskBlockIndex :=
  mkCDiskBlockIndex (set_POSDetailSet false child_node) 0 111.

Definition child_stream : list Z :=
  Eval vm_compute in
    match Serialize token_wire SER_GETHASH_value SER_DISK_value 1
            child_record with
    | Ret (w, _) => w
    | Err _ => []
    end.

(** * Properties *)

(** ** Bit masks of the status word *)

Lemma land_valid_mask (s : Z) : Z.land s BLOCK_VALID_MASK = s mod 8.
Proof.
  change BLOCK_VALID_MASK with (Z.ones 3).
  now rewrite Z.land_ones by lia.
Qed.

Lemma land_lnot_valid_mask (s : Z) :
  Z.land s (Z.lnot BLOCK_VALID_MASK) = 8 * (s / 8).
Proof.
  change BLOCK_VALID_MASK with (Z.ones 3).
  rewrite <- Z.ldiff_land, Z.ldiff_ones_r by lia.
  rewrite Z.shiftl_mul_pow2, Z.shiftr_div_pow2 by lia.
  change (2 ^ 3) with 8. lia.
Qed.

Lemma only_validity_flags_range (u : Z) :
  only_validity_flags u = true <-> 0 <= u <= 7.
Proof.
  unfold only_validity_flags, truthy.
  rewrite land_lnot_valid_mask, negb_involutive, Z.eqb_eq.
  pose proof (Z.div_mod u 8 ltac:(lia)).
  pose proof (Z.mod_pos_bound u 8 ltac:(lia)).
  lia.
Qed.

Lemma failed_markers (this : CBlockIndex) :
  failed this <->
  Z.testbit (nStatus this) 5 = true \/ Z.testbit (nStatus this) 6 = true.
Proof.
  unfold failed. split.
  - intros Hne.
    destruct (Z.testbit (nStatus this) 5) eqn:H5; [now left|].
    destruct (Z.testbit (nStatus this) 6) eqn:H6; [now right|].
    exfalso. apply Hne. apply Z.bits_inj'. intros i Hi.
    rewrite Z.land_spec, Z.bits_0.
    destruct (Z.eq_dec i 5) as [->|]; [now rewrite H5|].
    destruct (Z.eq_dec i 6) as [->|]; [now rewrite H6|].
    replace (Z.testbit BLOCK_FAILED_MASK i) with false;
      [apply andb_false_r|].
    change BLOCK_FAILED_MASK with (Z.lor (2 ^ 5) (2 ^ 6)).
    rewrite Z.lor_spec, !Z.pow2_bits_eqb by lia.
    symmetry. apply orb_false_iff. split; apply Z.eqb_neq; lia.
  - intros Hbit Hz.
    assert (Hb : forall i, Z.testbit BLOCK_FAILED_MASK i = true ->
                           Z.testbit (nStatus this) i = false).
    { intros i Hi. pose proof (f_equal (fun z => Z.testbit z i) Hz) as E.
      cbv beta in E. rewrite Z.land_spec, Z.bits_0, Hi, andb_true_r in E.
      exact E. }
    destruct Hbit as [Hbit|Hbit]; rewrite Hb in Hbit by reflexivity;
      discriminate.
Qed.

Lemma stage_raised (s u : Z) :
  0 <= u <= 7 ->
  Z.land (Z.lor (Z.land s (Z.lnot BLOCK_VALID_MASK)) u) BLOCK_VALID_MASK = u.
Proof.
  intros Hu.
  rewrite Z.land_lor_distr_l, <- Z.land_assoc.
  change (Z.land (Z.lnot BLOCK_VALID_MASK) BLOCK_VALID_MASK) with 0.
  rewrite Z.land_0_r, Z.lor_0_l, land_valid_mask.
  apply Z.mod_small. lia.
Qed.

(** Raising the stage touches no bit outside the validity mask. *)
Lemma other_bits_kept (s u : Z) :
  0 <= u <= 7 ->
  Z.land (Z.lor (Z.land s (Z.lnot BLOCK_VALID_MASK)) u)
    (Z.lnot BLOCK_VALID_MASK)
  = Z.land s (Z.lnot BLOCK_VALID_MASK).
Proof.
  intros Hu.
  rewrite Z.land_lor_distr_l, <- Z.land_assoc, Z.land_diag.
  rewrite (land_lnot_valid_mask u).
  replace (u / 8) with 0 by (symmetry; apply Z.div_small; lia).
  now rewrite Z.mul_0_r, Z.lor_0_r.
Qed.

(** ** Sticky failure *)

Lemma failed_truthy (this : CBlockIndex) :
  failed this -> truthy (Z.land (nStatus this) BLOCK_FAILED_MASK) = true.
Proof.
  unfold failed, truthy. intros H.
  apply negb_true_iff, Z.eqb_neq, H.
Qed.

Lemma RaiseValidity_failed (this : CBlockIndex) (nUpTo : Z) :
  failed this -> only_validity_flags nUpTo = true ->
  RaiseValidity this nUpTo = Ret (false, this).
Proof.
  intros Hf Hu. unfold RaiseValidity.
  rewrite Hu. cbn [assert bind]. now rewrite failed_truthy.
Qed.

Lemma IsValid_failed (this : CBlockIndex) (nUpTo : Z) :
  failed this -> only_validity_flags nUpTo = true ->
  IsValid this nUpTo = Ret false.
Proof.
  intros Hf Hu. unfold IsValid.
  rewrite Hu. cbn [assert bind]. now rewrite failed_truthy.
Qed.

Lemma validity_stages_allowed (u : Z) :
  In u validity_stages -> only_validity_flags u = true.
Proof.
  intros Hin. apply only_validity_flags_range.
  unfold validity_stages in Hin. cbn in Hin.
  unfold BLOCK_VALID_HEADER, BLOCK_VALID_TREE, BLOCK_VALID_TRANSACTIONS,
    BLOCK_VALID_CHAIN, BLOCK_VALID_SCRIPTS in Hin.
  intuition lia.
Qed.

(** C1. Once an entry carries a failure marker (failed here, bit 5, or
    failed through an ancestor, bit 6), every [RaiseValidity] call made
    with validity flags returns false and leaves the entry as it was, so
    does any run of such calls, and [IsValid] answers false for every
    stage, [BLOCK_VALID_HEADER] included. *)
Theorem failure_is_sticky (this : CBlockIndex) :
  failed this ->
  (forall nUpTo, only_validity_flags nUpTo = true ->
     RaiseValidity this nUpTo = Ret (false, this)
     /\ IsValid this nUpTo = Ret false)
  /\ (forall calls, Forall (fun u => only_validity_flags u = true) calls ->
        RaiseValidity_seq this calls = Ret (map (fun _ => false) calls, this))
  /\ (forall u, In u validity_stages ->
        RaiseValidity this u = Ret (false, this) /\ IsValid this u = Ret false)
  /\ IsValid this BLOCK_VALID_HEADER = Ret false.
Proof.
  intros Hf.
  assert (Hone : forall nUpTo, only_validity_flags nUpTo = true ->
            RaiseValidity this nUpTo = Ret (false, this)
            /\ IsValid this nUpTo = Ret false).
  { intros u Hu. split;
      [now apply RaiseValidity_failed | now apply IsValid_failed]. }
  split; [exact Hone|]. split; [|split].
  - intros calls Hall. induction Hall as [|u calls Hu _ IH].
    + reflexivity.
    + cbn [RaiseValidity_seq map].
      rewrite (RaiseValidity_failed this u Hf Hu). cbn [bind].
      rewrite IH. reflexivity.
  - intros u Hin. apply Hone, validity_stages_allowed, Hin.
  - apply Hone. reflexivity.
Qed.

Lemma failure_is_sticky_witness :
  RaiseValidity failed_entry BLOCK_VALID_SCRIPTS = Ret (false, failed_entry)
  /\ IsValid failed_entry BLOCK_VALID_HEADER = Ret false.
Proof.
  assert (Hf : failed failed_entry) by (unfold failed; vm_compute; lia).
  destruct (failure_is_sticky failed_entry Hf) as (H1 & _ & _ & H4).
  split; [apply (H1 BLOCK_VALID_SCRIPTS); reflexivity | exact H4].
Defined.

(** ** Monotonic validity stage *)

Lemma not_failed_truthy (this : CBlockIndex) :
  ~ failed this -> truthy (Z.land (nStatus this) BLOCK_FAILED_MASK) = false.
Proof.
  unfold failed, truthy. intros H.
  apply negb_false_iff, Z.eqb_eq.
  destruct (Z.eq_dec (Z.land (nStatus this) BLOCK_FAILED_MASK) 0); tauto.
Qed.

Lemma raised_stage (this : CBlockIndex) (nUpTo : Z) :
  only_validity_flags nUpTo = true -> stage (raised this nUpTo) = nUpTo.
Proof.
  intros Hu. apply only_validity_flags_range in Hu.
  unfold stage, raised. cbn [nStatus set_nStatus].
  now apply stage_raised.
Qed.

Lemma raised_still_sound (this : CBlockIndex) (nUpTo : Z) :
  only_validity_flags nUpTo = true -> ~ failed this ->
  ~ failed (raised this nUpTo).
Proof.
  intros Hu Hnf. apply only_validity_flags_range in Hu.
  unfold failed, raised in *. cbn [nStatus set_nStatus].
  assert (Hz : Z.land nUpTo BLOCK_FAILED_MASK = 0).
  { replace nUpTo with (Z.land nUpTo BLOCK_VALID_MASK)
      by (rewrite land_valid_mask; apply Z.mod_small; lia).
    now rewrite <- Z.land_assoc, Z.land_0_r. }
  rewrite Z.land_lor_distr_l, <- Z.land_assoc, Hz, Z.lor_0_r.
  exact Hnf.
Qed.

Lemma RaiseValidity_sound (this : CBlockIndex) (nUpTo : Z) :
  ~ failed this -> only_validity_flags nUpTo = true ->
  RaiseValidity this nUpTo =
    if stage this <? nUpTo then Ret (true, raised this nUpTo)
    else Ret (false, this).
Proof.
  intros Hnf Hu. unfold RaiseValidity.
  rewrite Hu. cbn [assert bind]. now rewrite not_failed_truthy.
Qed.

(** C2. On an entry without a failure marker, [RaiseValidity(nUpTo)]
    returns true exactly when [nUpTo] is above the stored stage; it then
    stores [nUpTo] as the stage and changes no other bit of the status and
    no other field.  Otherwise it returns false and the entry is as
    before.  From stage header, raising to tree and then to header leaves
    the stage at tree, and the second call returns false. *)
Theorem RaiseValidity_monotonic (this : CBlockIndex) :
  ~ failed this ->
  (forall nUpTo, only_validity_flags nUpTo = true ->
     exists changed this',
       RaiseValidity this nUpTo = Ret (changed, this')
       /\ (changed = true <-> stage this < nUpTo)
       /\ (changed = true ->
             stage this' = nUpTo
             /\ Z.land (nStatus this') (Z.lnot BLOCK_VALID_MASK)
                = Z.land (nStatus this) (Z.lnot BLOCK_VALID_MASK)
             /\ set_nStatus (nStatus this) this' = this)
       /\ (changed = false -> this' = this)
       /\ stage this <= stage this')
  /\ (stage this = BLOCK_VALID_HEADER ->
        exists this1,
          RaiseValidity this BLOCK_VALID_TREE = Ret (true, this1)
          /\ RaiseValidity this1 BLOCK_VALID_HEADER = Ret (false, this1)
          /\ stage this1 = BLOCK_VALID_TREE).
Proof.
  intros Hnf. split.
  - intros u Hu. rewrite (RaiseValidity_sound this u Hnf Hu).
    destruct (stage this <? u) eqn:Hlt.
    + apply Z.ltb_lt in Hlt.
      exists true, (raised this u). split; [reflexivity|].
      split; [tauto|]. split; [|split; [discriminate|]].
      * intros _. split; [now apply raised_stage|]. split.
        -- unfold raised. cbn [nStatus set_nStatus].
           apply other_bits_kept. now apply only_validity_flags_range.
        -- unfold raised. now destruct this.
      * rewrite raised_stage by assumption. lia.
    + apply Z.ltb_ge in Hlt.
      exists false, this. split; [reflexivity|].
      split; [split; [discriminate | lia]|].
      split; [discriminate|]. split; [reflexivity | lia].
  - intros Hst. exists (raised this BLOCK_VALID_TREE).
    assert (Ht : only_validity_flags BLOCK_VALID_TREE = true) by reflexivity.
    assert (Hh : only_validity_flags BLOCK_VALID_HEADER = true) by reflexivity.
    split; [|split].
    + rewrite (RaiseValidity_sound this _ Hnf Ht), Hst. reflexivity.
    + rewrite (RaiseValidity_sound _ _ (raised_still_sound _ _ Ht Hnf) Hh).
      rewrite (raised_stage this _ Ht). reflexivity.
    + now apply raised_stage.
Qed.

Lemma RaiseValidity_monotonic_witness :
  exists this1,
    RaiseValidity header_entry BLOCK_VALID_TREE = Ret (true, this1)
    /\ RaiseValidity this1 BLOCK_VALID_HEADER = Ret (false, this1)
    /\ stage this1 = BLOCK_VALID_TREE.
Proof.
  assert (Hnf : ~ failed header_entry).
  { unfold failed. intros H. apply H. reflexivity. }
  exact (proj2 (RaiseValidity_monotonic header_entry Hnf) eq_refl).
Defined.

(** ** Proof-of-stake flags *)

Lemma set_nFlags_same (this : CBlockIndex) : set_nFlags (nFlags this) this = this.
Proof. now destruct this. Qed.

Lemma truthy_b2z (b : bool) : truthy (Z.b2z b) = b.
Proof. now destruct b. Qed.

Lemma pos_flag_bit (f : Z) :
  truthy (Z.land f BLOCK_PROOF_OF_STAKE) = Z.testbit f 0.
Proof.
  change BLOCK_PROOF_OF_STAKE with (Z.ones 1).
  rewrite Z.land_ones by lia. change (2 ^ 1) with 2.
  rewrite <- Z.bit0_mod. apply truthy_b2z.
Qed.

Lemma entropy_flag_bit (f : Z) :
  Z.shiftr (Z.land f BLOCK_STAKE_ENTROPY) 1 = Z.b2z (Z.testbit f 1).
Proof.
  rewrite Z.shiftr_land.
  change (Z.shiftr BLOCK_STAKE_ENTROPY 1) with (Z.ones 1).
  rewrite Z.land_ones by lia. change (2 ^ 1) with 2.
  rewrite <- Z.bit0_mod. f_equal.
  rewrite Z.shiftr_spec by lia. reflexivity.
Qed.

Lemma GetStakeEntropyBit_bit (this : CBlockIndex) :
  GetStakeEntropyBit this = Z.b2z (Z.testbit (nFlags this) 1).
Proof. apply entropy_flag_bit. Qed.

(** What [SetStakeEntropyBit] does for each of the two accepted values. *)
Lemma SetStakeEntropyBit_0 (this : CBlockIndex) :
  SetStakeEntropyBit this 0 = (true, this).
Proof.
  unfold SetStakeEntropyBit. cbn [Z.ltb Z.compare truthy Z.eqb negb].
  now rewrite Z.lor_0_r, set_nFlags_same.
Qed.

Lemma SetStakeEntropyBit_1 (this : CBlockIndex) :
  SetStakeEntropyBit this 1 =
    (true, set_nFlags (Z.lor (nFlags this) BLOCK_STAKE_ENTROPY) this).
Proof. reflexivity. Qed.

(** C7. [SetStakeEntropyBit] takes an [unsigned int].  It returns true
    exactly for the values 0 and 1; for a value above 1 it returns false
    and the entry is the one it was called on. *)
Theorem SetStakeEntropyBit_validates (this : CBlockIndex) (nEntropyBit : Z) :
  0 <= nEntropyBit < 2 ^ 32 ->
  (1 < nEntropyBit -> SetStakeEntropyBit this nEntropyBit = (false, this))
  /\ (nEntropyBit = 0 \/ nEntropyBit = 1 ->
        fst (SetStakeEntropyBit this nEntropyBit) = true)
  /\ (fst (SetStakeEntropyBit this nEntropyBit) = true <->
        nEntropyBit = 0 \/ nEntropyBit = 1).
Proof.
  intros Hrange. unfold SetStakeEntropyBit.
  destruct (1 <? nEntropyBit) eqn:Hgt.
  - apply Z.ltb_lt in Hgt. cbn [fst]. split; [reflexivity|].
    split; [lia|]. split; [discriminate | lia].
  - apply Z.ltb_ge in Hgt. cbn [fst]. split; [lia|].
    split; [reflexivity|]. split; [lia | reflexivity].
Qed.

Lemma SetStakeEntropyBit_validates_witness :
  SetStakeEntropyBit SetNull 2 = (false, SetNull)
  /\ fst (SetStakeEntropyBit SetNull 1) = true.
Proof.
  split.
  - apply (SetStakeEntropyBit_validates SetNull 2); lia.
  - apply (SetStakeEntropyBit_validates SetNull 1); lia.
Defined.

(** C10. [SetStakeEntropyBit] only ever sets flag bits: every bit of
    [nFlags] that was set is still set after the call, whatever the
    argument.  An entry whose entropy bit is 1 answers true to
    [SetStakeEntropyBit(0)] and its entropy bit is 1 afterwards. *)
Theorem entropy_flag_never_cleared (this : CBlockIndex) (nEntropyBit : Z) :
  (forall i, Z.testbit (nFlags this) i = true ->
     Z.testbit (nFlags (snd (SetStakeEntropyBit this nEntropyBit))) i = true)
  /\ (GetStakeEntropyBit this = 1 ->
        GetStakeEntropyBit (snd (SetStakeEntropyBit this nEntropyBit)) = 1)
  /\ (GetStakeEntropyBit this = 1 ->
        fst (SetStakeEntropyBit this 0) = true
        /\ GetStakeEntropyBit (snd (SetStakeEntropyBit this 0)) = 1).
Proof.
  assert (Hbits : forall i, Z.testbit (nFlags this) i = true ->
    Z.testbit (nFlags (snd (SetStakeEntropyBit this nEntropyBit))) i = true).
  { intros i Hi. unfold SetStakeEntropyBit.
    destruct (1 <? nEntropyBit); cbn [snd nFlags set_nFlags]; [exact Hi|].
    rewrite Z.lor_spec, Hi. reflexivity. }
  split; [exact Hbits|]. split.
  - rewrite !GetStakeEntropyBit_bit. intros H1.
    destruct (Z.testbit (nFlags this) 1) eqn:Hb; [|discriminate].
    now rewrite (Hbits 1 Hb).
  - intros H1. rewrite SetStakeEntropyBit_0. cbn [fst snd]. now split.
Qed.

Lemma entropy_flag_never_cleared_witness :
  fst (SetStakeEntropyBit entropy_entry 0) = true
  /\ GetStakeEntropyBit (snd (SetStakeEntropyBit entropy_entry 0)) = 1.
Proof.
  exact (proj2 (proj2 (entropy_flag_never_cleared entropy_entry 0)) eq_refl).
Defined.

(** *** Reading the proof-of-stake flag *)

Lemma SetPOSDetail_sets_flag (this : CBlockIndex) (block : CBlock) :
  POSDetailSet (SetPOSDetail this block) = true.
Proof. unfold SetPOSDetail. now destruct (blk_IsProofOfStake block). Qed.

(** X1. After [SetPOSDetail] the flag is set, so [IsProofOfStake]
    returns; its answer is true when the block is proof-of-stake or the
    entry had the proof-of-stake bit before, which [SetPOSDetail] never
    clears. *)
Lemma IsProofOfStake_after_SetPOSDetail (this : CBlockIndex) (block : CBlock) :
  IsProofOfStake (SetPOSDetail this block) =
    Ret (Z.testbit (nFlags this) 0 || blk_IsProofOfStake block).
Proof.
  unfold IsProofOfStake. rewrite SetPOSDetail_sets_flag.
  rewrite bool_decide_eq_true_2 by reflexivity.
  cbn [assert bind]. rewrite pos_flag_bit. f_equal.
  unfold SetPOSDetail, SetProofOfStake.
  destruct (blk_IsProofOfStake block); cbn [nFlags set_POSDetailSet
    set_nStakeTime set_prevoutStake set_nFlags].
  - rewrite Z.lor_spec.
    change (Z.testbit BLOCK_PROOF_OF_STAKE 0) with true.
    now rewrite !orb_true_r.
  - now rewrite orb_false_r.
Qed.

(** What the two readers of the proof-of-stake bit do.
    [IsProofOfStake] asserts [POSDetailSet]: on an entry whose flag is
    false the assertion fails.  [IsProofOfWork] reads the same bit
    without the assertion and returns on every entry.  With the flag true
    both return, and their answers are complementary and read from bit 0
    of [nFlags]. *)
Theorem pos_status_precondition (this : CBlockIndex) :
  (POSDetailSet this = false ->
     IsProofOfStake this = Err AssertionFailed
     /\ IsProofOfWork this = Ret (negb (Z.testbit (nFlags this) 0)))
  /\ (POSDetailSet this = true ->
        IsProofOfStake this = Ret (Z.testbit (nFlags this) 0)
        /\ IsProofOfWork this = Ret (negb (Z.testbit (nFlags this) 0))).
Proof.
  unfold IsProofOfStake, IsProofOfWork. rewrite pos_flag_bit.
  split; intros ->.
  - rewrite bool_decide_eq_false_2 by discriminate. now split.
  - rewrite bool_decide_eq_true_2 by reflexivity. now split.
Qed.

(** C4 does not hold of the code.  The claim is that reading the
    proof-of-stake status of an entry whose [POSDetailSet] flag is false
    fails fast for both readers.  On a freshly constructed entry the flag
    is false and [IsProofOfStake] does stop at its assertion, but
    [IsProofOfWork], which reads the very same bit, has no assertion and
    returns an answer. *)
Lemma IsProofOfWork_unguarded :
  POSDetailSet SetNull = false
  /\ IsProofOfStake SetNull = Err AssertionFailed
  /\ IsProofOfWork SetNull = Ret true
  /\ IsProofOfWork SetNull <> Err AssertionFailed.
Proof. repeat split. discriminate. Qed.

(** ** Median time past *)

Lemma ancestry_length heap k p nodes :
  ancestry heap k p = Some nodes -> (length nodes <= k)%nat.
Proof.
  revert p nodes. induction k as [|k IH]; intros p nodes H; cbn in H.
  - injection H as <-. cbn. lia.
  - destruct p as [a|]; [|injection H as <-; cbn; lia].
    destruct (heap !! a) as [node|]; [|discriminate]. cbn in H.
    destruct (ancestry heap k (pprev node)) as [rest|] eqn:Hrest;
      [|discriminate].
    cbn in H. injection H as <-. cbn. apply IH in Hrest. lia.
Qed.

(** [ancestry] lists exactly the entries met by following [pprev]: its
    [i]-th element is the [i]-th ancestor, and it ends before [k] entries
    only where there is no further ancestor. *)
Lemma ancestry_walk heap k p nodes :
  ancestry heap k p = Some nodes ->
  forall i, (i < k)%nat -> nodes !! i = walk heap p i.
Proof.
  revert p nodes. induction k as [|k IH]; intros p nodes H i Hi; [lia|].
  cbn in H. destruct p as [a|].
  - destruct (heap !! a) as [node|] eqn:Hnode; [|discriminate]. cbn in H.
    destruct (ancestry heap k (pprev node)) as [rest|] eqn:Hrest;
      [|discriminate].
    cbn in H. injection H as <-.
    destruct i as [|i]; cbn [walk]; rewrite Hnode; [reflexivity|].
    cbn. apply (IH _ _ Hrest). lia.
  - injection H as <-. now destruct i.
Qed.

Lemma ancestry_total heap k p :
  heap_closed heap -> (forall a, p = Some a -> is_Some (heap !! a)) ->
  is_Some (ancestry heap k p).
Proof.
  intros Hclosed. revert p. induction k as [|k IH]; intros p Hp; cbn.
  - now eexists.
  - destruct p as [a|]; [|now eexists].
    destruct (Hp a eq_refl) as [node Hnode]. rewrite Hnode. cbn.
    destruct (IH (pprev node)) as [rest Hrest].
    { intros q Hq. exact (Hclosed a node q Hnode Hq). }
    rewrite Hrest. cbn. now eexists.
Qed.

Lemma ancestry_nonempty heap k a nodes :
  ancestry heap (S k) (Some a) = Some nodes -> (1 <= length nodes)%nat.
Proof.
  cbn. destruct (heap !! a) as [node|]; [|discriminate]. cbn.
  destruct (ancestry heap k (pprev node)); [|discriminate].
  cbn. intros H. injection H as <-. cbn. lia.
Qed.

(** The loop writes the block times from [pbegin] downwards: afterwards
    the array holds, from the new [pbegin] on, the times met in reverse
    order, followed by what was there from the old [pbegin] on. *)
Lemma median_collect_spec heap left p nodes :
  ancestry heap left p = Some nodes ->
  forall pmedian pbegin,
    (left <= pbegin <= length pmedian)%nat ->
    exists pmedian',
      median_collect heap left p pmedian pbegin
        = Ret (pmedian', (pbegin - length nodes)%nat)
      /\ length pmedian' = length pmedian
      /\ drop (pbegin - length nodes) pmedian'
         = reverse (GetBlockTime <$> nodes) ++ drop pbegin pmedian.
Proof.
  revert p nodes. induction left as [|left IH];
    intros p nodes H pmedian pbegin Hb; cbn in H.
  - injection H as <-. exists pmedian. cbn.
    rewrite Nat.sub_0_r. auto.
  - destruct p as [a|].
    + cbn [median_collect].
      destruct (heap !! a) as [node|]; [|discriminate]. cbn in H.
      destruct (ancestry heap left (pprev node)) as [rest|] eqn:Hrest;
        [|discriminate].
      cbn in H. injection H as <-.
      pose proof (ancestry_length _ _ _ _ Hrest) as Hlen.
      destruct (IH _ _ Hrest (<[Nat.pred pbegin := GetBlockTime node]> pmedian)
                  (Nat.pred pbegin)) as (pm' & Hrun & Hlen' & Hdrop).
      { rewrite length_insert. lia. }
      exists pm'. cbn [length].
      replace (pbegin - S (length rest))%nat
        with (Nat.pred pbegin - length rest)%nat by lia.
      split; [exact Hrun|]. split; [now rewrite Hlen', length_insert|].
      rewrite Hdrop, fmap_cons, reverse_cons, <- app_assoc. f_equal.
      rewrite drop_insert_ge, Nat.sub_diag by lia.
      destruct (lookup_lt_is_Some_2 pmedian (Nat.pred pbegin)) as [x Hx];
        [lia|].
      rewrite (drop_S _ _ _ Hx). cbn.
      replace (S (Nat.pred pbegin)) with pbegin by lia. reflexivity.
    + injection H as <-. exists pmedian. cbn.
      rewrite Nat.sub_0_r. auto.
Qed.

(** The value [GetMedianTimePast] returns, in closed form. *)
Lemma GetMedianTimePast_eq heap this pmedian nodes :
  length pmedian = nMedianTimeSpan ->
  ancestry heap nMedianTimeSpan (Some this) = Some nodes ->
  exists t,
    merge_sort Z.le (reverse (GetBlockTime <$> nodes))
      !! (length nodes / 2)%nat = Some t
    /\ GetMedianTimePast heap this pmedian = Ret t.
Proof.
  intros Hlen Hanc.
  pose proof (ancestry_length _ _ _ _ Hanc) as Hle.
  pose proof (ancestry_nonempty _ _ _ _ Hanc) as Hge.
  destruct (median_collect_spec _ _ _ _ Hanc pmedian nMedianTimeSpan)
    as (pm' & Hrun & Hlen' & Hdrop); [lia|].
  rewrite (drop_ge pmedian) in Hdrop by lia. rewrite app_nil_r in Hdrop.
  set (times := reverse (GetBlockTime <$> nodes)) in *.
  assert (Htl : length times = length nodes)
    by (unfold times; now rewrite length_reverse, length_fmap).
  assert (Hsl : length (merge_sort Z.le times) = length nodes)
    by (rewrite <- Htl; apply Permutation_length, merge_sort_Permutation).
  assert (Hhalf : (length nodes / 2 < length nodes)%nat)
    by (apply Nat.div_lt; lia).
  destruct (lookup_lt_is_Some_2 (merge_sort Z.le times) (length nodes / 2))
    as [t Ht]; [lia|].
  exists t. split; [exact Ht|].
  unfold GetMedianTimePast. rewrite Hrun. cbn [bind].
  unfold std_sort. rewrite Hdrop.
  replace (nMedianTimeSpan - (nMedianTimeSpan - length nodes))%nat
    with (length nodes) by lia.
  rewrite (take_ge times) by lia.
  rewrite lookup_app_r by (rewrite length_take; lia).
  rewrite length_take.
  replace (nMedianTimeSpan - length nodes + length nodes / 2
           - (nMedianTimeSpan - length nodes) `min` length pm')%nat
    with (length nodes / 2)%nat by lia.
  rewrite lookup_app_l by lia. now rewrite Ht.
Qed.

(** C5. [GetMedianTimePast] returns the element at index [count / 2] of
    the sorted block times of the entry and its ancestors, where at most
    11 entries are taken: the [i]-th of them is the [i]-th entry along
    [pprev], and there are fewer than 11 only when [pprev] runs out.  The
    result does not depend on what the array held before the call.  On
    the chain with times 100, 103, 107, 110, 111, 112, 115, 120, 121,
    130, 140 the result is 112, also when older blocks precede them. *)
Theorem GetMedianTimePast_median :
  (forall heap this pmedian nodes,
     length pmedian = nMedianTimeSpan ->
     ancestry heap nMedianTimeSpan (Some this) = Some nodes ->
     let times := GetBlockTime <$> nodes in
     (1 <= length times <= 11)%nat
     /\ (forall i, (i < 11)%nat -> nodes !! i = walk heap (Some this) i)
     /\ exists sorted t,
          Sorted Z.le sorted /\ sorted ≡ₚ times
          /\ sorted !! (length times / 2)%nat = Some t
          /\ GetMedianTimePast heap this pmedian = Ret t)
  /\ (forall heap this, heap_closed heap -> is_Some (heap !! this) ->
        is_Some (ancestry heap nMedianTimeSpan (Some this)))
  /\ (forall pmedian, length pmedian = nMedianTimeSpan ->
        GetMedianTimePast example_heap example_tip pmedian = Ret 112
        /\ GetMedianTimePast long_heap 13%positive pmedian = Ret 112).
Proof.
  split; [|split].
  - intros heap this pmedian nodes Hlen Hanc times.
    destruct (GetMedianTimePast_eq _ _ _ _ Hlen Hanc) as (t & Ht & Hrun).
    unfold times. rewrite length_fmap.
    split; [|split].
    + pose proof (ancestry_length _ _ _ _ Hanc).
      pose proof (ancestry_nonempty _ _ _ _ Hanc).
      unfold nMedianTimeSpan in *. lia.
    + exact (ancestry_walk _ _ _ _ Hanc).
    + exists (merge_sort Z.le (reverse (GetBlockTime <$> nodes))), t.
      split; [apply Sorted_merge_sort; apply _|].
      split; [|split; assumption].
      rewrite merge_sort_Permutation. apply reverse_Permutation.
  - intros heap this Hclosed Hthis. apply ancestry_total; [assumption|].
    intros a [= <-]. exact Hthis.
  - intros pmedian Hlen. split.
    + destruct (GetMedianTimePast_eq example_heap example_tip pmedian _ Hlen
                  eq_refl) as (t & Ht & ->).
      vm_compute in Ht. now injection Ht as <-.
    + destruct (GetMedianTimePast_eq long_heap 13%positive pmedian _ Hlen
                  eq_refl) as (t & Ht & ->).
      vm_compute in Ht. now injection Ht as <-.
Qed.

Lemma GetMedianTimePast_median_witness :
  (exists sorted t,
     Sorted Z.le sorted /\ sorted ≡ₚ GetBlockTime <$> example_nodes
     /\ sorted !! (length (GetBlockTime <$> example_nodes) / 2)%nat = Some t
     /\ GetMedianTimePast example_heap example_tip (replicate 11 0) = Ret t)
  /\ GetMedianTimePast example_heap example_tip (replicate 11 0) = Ret 112.
Proof.
  split.
  - exact (proj2 (proj2 (proj1 GetMedianTimePast_median example_heap
             example_tip (replicate 11 0) example_nodes eq_refl eq_refl))).
  - exact (proj1 (proj2 (proj2 GetMedianTimePast_median) (replicate 11 0)
             eq_refl)).
Defined.

(** ** Memoized record hash *)

Lemma cache_hit_test fast adjusted this :
  fast && (nTime (base this) <? adjusted - 24 * 60 * 60)
    && negb (blockHash this =? 0) = true
  <-> cache_hit fast adjusted this.
Proof.
  unfold cache_hit. change (24 * 60 * 60) with 86400.
  rewrite !andb_true_iff, Z.ltb_lt, negb_true_iff, Z.eqb_neq. tauto.
Qed.

(** C6. [CDiskBlockIndex::GetBlockHash] returns the cached [blockHash],
    hashes nothing and leaves the record alone exactly when the fast-index
    flag is on, the record's time is below the adjusted time minus 24
    hours, and the cached hash is not zero.  In every other case it hashes
    once, the header made of the record's version, previous hash, merkle
    root, time, bits and nonce; stores that hash as [blockHash]; and
    returns it. *)
Theorem GetBlockHash_memoized (GetHash : CBlockHeader.t -> uint256)
    (fUseFastIndex : bool) (adjusted_time : Z) (this : CDiskBlockIndex) :
  let r := CDiskBlockIndex_GetBlockHash GetHash fUseFastIndex adjusted_time
             this in
  (cache_hit fUseFastIndex adjusted_time this ->
     returned r = blockHash this /\ after r = this /\ hashed r = [])
  /\ (~ cache_hit fUseFastIndex adjusted_time this ->
        hashed r = [header_of this]
        /\ returned r = GetHash (header_of this)
        /\ after r = set_blockHash (GetHash (header_of this)) this
        /\ blockHash (after r) = returned r)
  /\ (hashed r = [] <-> cache_hit fUseFastIndex adjusted_time this).
Proof.
  intros r. subst r. unfold CDiskBlockIndex_GetBlockHash.
  pose proof (cache_hit_test fUseFastIndex adjusted_time this) as Htest.
  destruct (fUseFastIndex
            && (nTime (base this) <? adjusted_time - 24 * 60 * 60)
            && negb (blockHash this =? 0)).
  - assert (Hhit : cache_hit fUseFastIndex adjusted_time this)
      by now apply Htest.
    cbn [returned after hashed]. split; [auto|]. split; [tauto|].
    split; auto.
  - assert (Hmiss : ~ cache_hit fUseFastIndex adjusted_time this).
    { intros Hhit. apply Htest in Hhit. discriminate. }
    cbn [returned after hashed set_blockHash blockHash].
    split; [tauto|]. split; [intros _; repeat split|].
    split; [discriminate | tauto].
Qed.

(** ** The active chain *)

Lemma wrap_small (w z : Z) : 0 <= z < 2 ^ w -> wrap w z = z.
Proof. intros H. unfold wrap. now apply Z.mod_small. Qed.

Lemma to_signed_small (w z : Z) :
  0 < w -> 0 <= z < 2 ^ (w - 1) -> to_signed w z = z.
Proof.
  intros Hw H. unfold to_signed.
  assert (2 ^ w = 2 * 2 ^ (w - 1)).
  { replace w with (Z.succ (w - 1)) at 1 by lia.
    rewrite Z.pow_succ_r by lia. reflexivity. }
  rewrite wrap_small by lia.
  destruct (z <? 2 ^ (w - 1)) eqn:E; [reflexivity|].
  apply Z.ltb_ge in E. lia.
Qed.

Lemma vector_size_nonneg {A : Type} (v : list A) : 0 <= vector_size v.
Proof. unfold vector_size. lia. Qed.

Lemma vector_size_0 {A : Type} (v : list A) : vector_size v = 0 <-> v = [].
Proof.
  unfold vector_size. destruct v; cbn [length]; split;
    (reflexivity || discriminate || lia).
Qed.

Lemma vector_size_pos {A : Type} (v : list A) : v <> [] -> 0 < vector_size v.
Proof.
  intros Hne. pose proof (vector_size_nonneg v).
  destruct (Z.eq_dec (vector_size v) 0) as [E|E]; [|lia].
  apply vector_size_0 in E. contradiction.
Qed.

Lemma vector_at_in_bounds {A : Type} (v : list A) (i : Z) :
  0 <= i < vector_size v ->
  exists x, v !! Z.to_nat i = Some x /\ vector_at v i = Ret x.
Proof.
  intros Hi. unfold vector_at.
  destruct (lookup_lt_is_Some_2 v (Z.to_nat i)) as [x Hx].
  { unfold vector_size in Hi. lia. }
  exists x. split; [exact Hx|].
  replace ((0 <=? i) && (i <? vector_size v)) with true.
  - now rewrite Hx.
  - symmetry. apply andb_true_iff. split; [apply Z.leb_le | apply Z.ltb_lt]; lia.
Qed.

Lemma vector_at_out_of_bounds {A : Type} (v : list A) (i : Z) :
  ~ (0 <= i < vector_size v) -> vector_at v i = Err UndefinedBehaviour.
Proof.
  intros Hi. unfold vector_at.
  destruct ((0 <=? i) && (i <? vector_size v)) eqn:E; [|reflexivity].
  apply andb_true_iff in E. destruct E as [E1 E2].
  apply Z.leb_le in E1. apply Z.ltb_lt in E2. lia.
Qed.

Lemma Height_length (c : CChain) :
  vector_size c < 2 ^ 31 -> Height c = vector_size c - 1.
Proof.
  intros Hfit. pose proof (vector_size_nonneg c) as Hnn.
  unfold Height, size_t_bits, int_bits.
  destruct (Z.eq_dec (vector_size c) 0) as [E|E].
  - rewrite E. reflexivity.
  - rewrite wrap_small by lia. apply to_signed_small; lia.
Qed.

Lemma CChain_at_inside (c : CChain) (h : Z) :
  vector_size c < 2 ^ 31 -> 0 <= h < vector_size c ->
  exists p, c !! Z.to_nat h = Some p /\ CChain_at c h = Ret p.
Proof.
  intros Hfit Hh. unfold CChain_at, int_bits, size_t_bits.
  rewrite to_signed_small by (pose proof (vector_size_nonneg c); lia).
  replace ((h <? 0) || (vector_size c <=? h)) with false.
  - rewrite wrap_small by lia. now apply vector_at_in_bounds.
  - symmetry. apply orb_false_iff.
    split; [apply Z.ltb_ge | apply Z.leb_gt]; lia.
Qed.

Lemma CChain_at_outside (c : CChain) (h : Z) :
  vector_size c < 2 ^ 31 -> ~ (0 <= h < vector_size c) ->
  CChain_at c h = Ret None.
Proof.
  intros Hfit Hh. unfold CChain_at, int_bits.
  rewrite to_signed_small by (pose proof (vector_size_nonneg c); lia).
  replace ((h <? 0) || (vector_size c <=? h)) with true; [reflexivity|].
  symmetry. apply orb_true_iff.
  destruct (Z.lt_ge_cases h 0); [left; apply Z.ltb_lt | right; apply Z.leb_le];
    lia.
Qed.

Lemma Genesis_Tip_empty : Genesis [] = Ret None /\ Tip [] = Ret None.
Proof. split; reflexivity. Qed.

Lemma Genesis_Tip_nonempty (c : CChain) :
  vector_size c < 2 ^ 31 -> c <> [] ->
  exists g t,
    c !! 0%nat = Some g /\ last c = Some t
    /\ Genesis c = Ret g /\ Tip c = Ret t.
Proof.
  intros Hfit Hne.
  assert (Hpos : 0 < vector_size c) by now apply vector_size_pos.
  unfold Genesis, Tip, size_t_bits.
  replace (0 <? vector_size c) with true by (symmetry; now apply Z.ltb_lt).
  rewrite wrap_small by lia.
  destruct (vector_at_in_bounds c 0) as (g & Hg & ->); [lia|].
  destruct (vector_at_in_bounds c (vector_size c - 1)) as (t & Ht & ->); [lia|].
  exists g, t. split; [exact Hg|]. split; [|split; reflexivity].
  rewrite last_lookup. rewrite <- Ht. f_equal.
  unfold vector_size. lia.
Qed.

(** C8. For a chain whose length fits an [int]: [Height] is the length
    minus one, so -1 for the empty chain; [operator[]] returns the stored
    pointer for a height from 0 to [Height] and null for any other, and
    never fails; [Genesis] and [Tip] return the first and the last stored
    pointer of a chain that is not empty and null for the empty one, so
    with no null pointer stored they are null exactly for the empty
    chain. *)
Theorem CChain_accessors_total (c : CChain) :
  vector_size c < 2 ^ 31 ->
  Height c = vector_size c - 1
  /\ (c = [] -> Height c = -1)
  /\ (forall h, 0 <= h <= Height c ->
        exists p, c !! Z.to_nat h = Some p /\ CChain_at c h = Ret p)
  /\ (forall h, ~ (0 <= h <= Height c) -> CChain_at c h = Ret None)
  /\ (c = [] -> Genesis c = Ret None /\ Tip c = Ret None)
  /\ (c <> [] ->
        exists g t, c !! 0%nat = Some g /\ last c = Some t
                    /\ Genesis c = Ret g /\ Tip c = Ret t)
  /\ (Forall is_Some c ->
        (Genesis c = Ret None <-> c = []) /\ (Tip c = Ret None <-> c = [])).
Proof.
  intros Hfit. pose proof (Height_length c Hfit) as HH.
  split; [exact HH|]. split; [intros ->; reflexivity|].
  split; [intros h Hh; apply CChain_at_inside; [assumption | lia]|].
  split; [intros h Hh; apply CChain_at_outside; [assumption | lia]|].
  split; [intros ->; exact Genesis_Tip_empty|].
  split; [now apply Genesis_Tip_nonempty|].
  intros Hall.
  assert (Hnn : c <> [] -> Genesis c <> Ret None /\ Tip c <> Ret None).
  { intros Hne.
    destruct (Genesis_Tip_nonempty c Hfit Hne) as (g & t & Hg & Ht & -> & ->).
    rewrite Forall_lookup in Hall.
    rewrite last_lookup in Ht.
    destruct (Hall _ _ Hg) as [g' ->]. destruct (Hall _ _ Ht) as [t' ->].
    split; discriminate. }
  split; (split; [|intros ->; reflexivity]); intros Hnull;
    (destruct c as [|x c']; [reflexivity|]);
    destruct Hnn as [Hg Ht]; try discriminate; contradiction.
Qed.

Lemma CChain_accessors_total_witness :
  Height three_chain = 2
  /\ CChain_at three_chain 3 = Ret None
  /\ CChain_at three_chain (-1) = Ret None.
Proof.
  assert (Hfit : vector_size three_chain < 2 ^ 31) by (vm_compute; reflexivity).
  destruct (CChain_accessors_total three_chain Hfit) as (HH & _ & _ & Hout & _).
  split; [exact HH|].
  split; apply Hout; rewrite HH; vm_compute; intros [H1 H2];
    (now apply H1 || now apply H2).
Defined.

(** *** Comparing chains *)

(** X2. For two chains of the same length that are not empty, the
    comparison reads the last element of each, inside the vector, and
    returns whether the two pointers are equal. *)
Lemma CChain_eq_nonempty (a b : CChain) :
  vector_size a < 2 ^ 64 -> a <> [] -> length a = length b ->
  exists x y, last a = Some x /\ last b = Some y
              /\ CChain_eq a b = Ret (bool_decide (x = y)).
Proof.
  intros Hfit Hne Hlen.
  assert (Hsz : vector_size a = vector_size b)
    by (unfold vector_size; now rewrite Hlen).
  assert (Hpos : 0 < vector_size a) by now apply vector_size_pos.
  unfold CChain_eq, size_t_bits. rewrite <- Hsz, Z.eqb_refl.
  rewrite wrap_small by lia.
  destruct (vector_at_in_bounds a (vector_size a - 1)) as (x & Hx & ->); [lia|].
  destruct (vector_at_in_bounds b (vector_size a - 1)) as (y & Hy & ->); [lia|].
  exists x, y. rewrite !last_lookup. cbn [bind].
  split; [|split; [|reflexivity]].
  - rewrite <- Hx. f_equal. unfold vector_size. lia.
  - rewrite <- Hy. f_equal. unfold vector_size. lia.
Qed.

Lemma CChain_eq_nonempty_witness :
  exists x y,
    last three_chain = Some x /\ last three_chain = Some y
    /\ CChain_eq three_chain three_chain = Ret (bool_decide (x = y)).
Proof.
  apply (CChain_eq_nonempty three_chain three_chain);
    [vm_compute; reflexivity | discriminate | reflexivity].
Defined.

(** C9 fails on the code.  Two empty chains have equal sizes, so the
    comparison goes on to read element [size() - 1] of each; with size 0
    the index wraps to the largest [size_t], which is outside the empty
    vector.  [Tip], which reads the same element, tests for the empty
    vector first. *)
Theorem CChain_eq_empty_out_of_bounds :
  wrap size_t_bits (vector_size (@nil (option loc)) - 1) = 2 ^ 64 - 1
  /\ vector_at (@nil (option loc)) (2 ^ 64 - 1) = Err UndefinedBehaviour
  /\ CChain_eq [] [] = Err UndefinedBehaviour
  /\ Tip [] = Ret None.
Proof. repeat split. Qed.

(** ** Disk record round trip *)

Lemma rd_put {tok A : Type} (c : Codec tok A) (x : A) (rest : list tok) :
  codec_ok c -> rd c (put c x ++ rest) = Ret (x, rest).
Proof. intros Hc. unfold rd. now rewrite Hc. Qed.

Lemma token_wire_ok : wire_ok token_wire.
Proof.
  split; intros x rest; try reflexivity.
  now destruct x.
Qed.

Lemma CDiskBlockIndex_of_ret heap pindex node hp :
  heap !! pindex = Some node -> parent_hash heap node = Some hp ->
  CDiskBlockIndex_of heap pindex = Ret (mkCDiskBlockIndex node 0 hp).
Proof.
  unfold CDiskBlockIndex_of, parent_hash. intros -> Hp.
  destruct (pprev node) as [p|].
  - destruct (heap !! p) as [parent|]; [|discriminate]. cbn in Hp.
    unfold GetBlockHash. rewrite Hp. reflexivity.
  - now injection Hp as <-.
Qed.

Ltac fields :=
  cbn [base blockHash hashPrev upd set_blockHash set_hashPrev
       phashBlock pprev nChainTrust pskip nHeight nFile nDataPos nUndoPos nTx
       nChainTx nStatus nMint nMoneySupply nFlags nStakeModifier prevoutStake
       nStakeTime hashProof POSDetailSet nVersion hashMerkleRoot nTime nBits
       nNonce nSequenceId
       set_nHeight set_nFile set_nDataPos set_nUndoPos set_nTx set_nStatus
       set_nMint set_nMoneySupply set_nFlags set_nStakeModifier
       set_prevoutStake set_nStakeTime set_hashProof set_POSDetailSet
       set_nVersion set_hashMerkleRoot set_nTime set_nBits set_nNonce].

Section RoundTrip.

Context {tok : Type} (W : Wire tok) (SER_GETHASH : Z).
Hypothesis W_ok : wire_ok W.

Lemma IsProofOfStake_detail_set (b : CBlockIndex) :
  IsProofOfStake (set_POSDetailSet true b) = Ret (pos_bit b).
Proof. reflexivity. Qed.

(** Writing always returns: the assertion of [IsProofOfStake] is met by
    the assignment just before it. *)
Lemma Serialize_returns nType nVersionPar this :
  exists w,
    Serialize W SER_GETHASH nType nVersionPar this
      = Ret (w, upd (set_POSDetailSet true) this).
Proof.
  unfold Serialize. fields. rewrite IsProofOfStake_detail_set.
  cbn [bind]. eexists. reflexivity.
Qed.

Ltac read_one :=
  first
    [ rewrite (rd_put (VARINT W)) by apply W_ok
    | rewrite (rd_put (ser_int W)) by apply W_ok
    | rewrite (rd_put (ser_uint W)) by apply W_ok
    | rewrite (rd_put (ser_uint64 W)) by apply W_ok
    | rewrite (rd_put (ser_uint256 W)) by apply W_ok
    | rewrite (rd_put (ser_outpoint W)) by apply W_ok ];
  cbn [bind]; fields.

Lemma Unserialize_Serialize nType nVersionPar r t w r' rest :
  Serialize W SER_GETHASH nType nVersionPar r = Ret (w, r') ->
  Unserialize W SER_GETHASH nType t (w ++ rest) = Ret (decoded r t, rest).
Proof.
  destruct r as [rb rh rp], t as [tb th tp].
  destruct rb as
    [r_phashBlock r_pprev r_nChainTrust r_pskip r_nHeight r_nFile r_nDataPos
     r_nUndoPos r_nTx r_nChainTx r_nStatus r_nMint r_nMoneySupply r_nFlags
     r_nStakeModifier r_prevoutStake r_nStakeTime r_hashProof r_POSDetailSet
     r_nVersion r_hashMerkleRoot r_nTime r_nBits r_nNonce r_nSequenceId].
  destruct tb as
    [t_phashBlock t_pprev t_nChainTrust t_pskip t_nHeight t_nFile t_nDataPos
     t_nUndoPos t_nTx t_nChainTx t_nStatus t_nMint t_nMoneySupply t_nFlags
     t_nStakeModifier t_prevoutStake t_nStakeTime t_hashProof t_POSDetailSet
     t_nVersion t_hashMerkleRoot t_nTime t_nBits t_nNonce t_nSequenceId].
  unfold Serialize, Unserialize, decoded. fields.
  rewrite !IsProofOfStake_detail_set. cbn [bind].
  unfold has_file, has_data, has_undo, pos_bit. fields.
  destruct (negb (truthy (Z.land nType SER_GETHASH)));
  destruct (truthy (Z.land r_nStatus
                      (Z.lor BLOCK_HAVE_DATA BLOCK_HAVE_UNDO))) eqn:Efile;
  destruct (truthy (Z.land r_nStatus BLOCK_HAVE_DATA)) eqn:Edata;
  destruct (truthy (Z.land r_nStatus BLOCK_HAVE_UNDO)) eqn:Eundo;
  destruct (truthy (Z.land r_nFlags BLOCK_PROOF_OF_STAKE)) eqn:Epos;
  intros [= <- <-]; cbn [app]; rewrite <- ?app_assoc; cbn [bind]; fields;
  repeat (first [ read_one
                | rewrite Efile | rewrite Edata | rewrite Eundo
                | rewrite IsProofOfStake_detail_set; unfold pos_bit; fields;
                  rewrite Epos ];
          cbn [bind]; fields);
  reflexivity.
Qed.

End RoundTrip.

(** C3, as the code has it.  Encoding an entry as a [CDiskBlockIndex] and
    decoding the stream returns a record, consumes exactly what was
    written, and the record
    - has the entry's height, status, transaction count, mint, money
      supply, flags, stake modifier, proof hash, version, merkle root,
      time, bits and nonce;
    - has the parent's hash as [hashPrev] (zero without a parent);
    - has the entry's file number, data position and undo position where
      the status word has the matching availability flag, and otherwise
      what the record read into had;
    - has the entry's stake outpoint and stake time when the entry has
      the proof-of-stake bit, and the null outpoint and zero otherwise;
    - has [POSDetailSet] true;
    - keeps, for the fields that are not written (block hash pointer,
      parent and skip pointers, chain trust, chain transaction count,
      sequence id), what the record read into had. *)
Theorem disk_record_round_trip {tok : Type} (W : Wire tok)
    (SER_GETHASH nType nVersionPar : Z) (heap : gmap loc CBlockIndex)
    (pindex : loc) (node : CBlockIndex) (hp : uint256)
    (t : CDiskBlockIndex) (rest : list tok) :
  wire_ok W ->
  heap !! pindex = Some node ->
  parent_hash heap node = Some hp ->
  exists d,
    round_trip W SER_GETHASH nType nVersionPar heap pindex t rest
      = Ret (d, rest)
    /\ same_wire_fields (base d) node
    /\ hashPrev d = hp
    /\ disk_fields_decoded (base d) node (base t)
    /\ stake_fields_decoded (base d) node
    /\ POSDetailSet (base d) = true
    /\ same_memory_fields (base d) (base t).
Proof.
  intros HW Hnode Hparent.
  set (r := mkCDiskBlockIndex node 0 hp).
  exists (decoded r t). split.
  - unfold round_trip.
    rewrite (CDiskBlockIndex_of_ret _ _ _ _ Hnode Hparent). cbn [bind].
    destruct (Serialize_returns W SER_GETHASH nType nVersionPar r)
      as [w Hw].
    fold r. rewrite Hw. cbn [bind].
    exact (Unserialize_Serialize W SER_GETHASH HW _ _ _ _ _ _ _ Hw).
  - unfold decoded, r. fields.
    split; [repeat split|]. split; [reflexivity|].
    split; [repeat split|]. split; [|split; [reflexivity | repeat split]].
    split; intros ->; split; reflexivity.
Qed.

Lemma disk_record_round_trip_witness :
  exists d,
    round_trip token_wire SER_GETHASH_value SER_DISK_value 1 two_block_heap
      2%positive CDiskBlockIndex_default []
      = Ret (d, [])
    /\ same_wire_fields (base d) child_node
    /\ hashPrev d = 111
    /\ disk_fields_decoded (base d) child_node SetNull
    /\ stake_fields_decoded (base d) child_node
    /\ POSDetailSet (base d) = true
    /\ same_memory_fields (base d) SetNull.
Proof.
  apply (disk_record_round_trip token_wire SER_GETHASH_value SER_DISK_value
           1 two_block_heap 2%positive child_node 111
           CDiskBlockIndex_default []).
  - exact token_wire_ok.
  - reflexivity.
  - reflexivity.
Defined.

(** C3 as stated fails: not every field but the parent pointer survives.
    The entry [child_node] has a block hash pointer, a skip pointer, chain
    trust 5, chain transaction count 2 and sequence id 7; the record that
    comes back has none of them. *)
Lemma round_trip_loses_memory_fields :
  exists d,
    round_trip token_wire SER_GETHASH_value SER_DISK_value 1 two_block_heap
      2%positive CDiskBlockIndex_default []
      = Ret (d, [])
    /\ nChainTx (base d) <> nChainTx child_node
    /\ nSequenceId (base d) <> nSequenceId child_node
    /\ nChainTrust (base d) <> nChainTrust child_node
    /\ phashBlock (base d) <> phashBlock child_node
    /\ pskip (base d) <> pskip child_node.
Proof.
  eexists. split; [vm_compute; reflexivity|].
  cbn. repeat split; discriminate.
Qed.

(** ** Disk positions *)

Lemma CDiskBlockPos_eq_true (a b : CDiskBlockPos.t) :
  CDiskBlockPos.eq a b = true <-> a = b.
Proof.
  unfold CDiskBlockPos.eq. rewrite andb_true_iff, !Z.eqb_eq.
  destruct a, b; cbn. split.
  - intros [-> ->]. reflexivity.
  - intros [= -> ->]. now split.
Qed.

(** X3. [operator==] on disk positions is true exactly for positions
    with the same file and the same offset, and [operator!=] is true
    exactly for the others.  [IsNull] looks at the file number alone:
    every position in file -1 is null, whatever its offset, so two null
    positions with different offsets are unequal. *)
Theorem CDiskBlockPos_equality (a b : CDiskBlockPos.t) :
  (CDiskBlockPos.eq a b = true <-> a = b)
  /\ (CDiskBlockPos.neq a b = true <-> a <> b)
  /\ CDiskBlockPos.IsNull CDiskBlockPos.SetNull = true
  /\ (CDiskBlockPos.IsNull a = true <-> CDiskBlockPos.nFile a = -1)
  /\ (forall p q, p <> q ->
        CDiskBlockPos.IsNull (CDiskBlockPos.mk (-1) p) = true
        /\ CDiskBlockPos.IsNull (CDiskBlockPos.mk (-1) q) = true
        /\ CDiskBlockPos.eq (CDiskBlockPos.mk (-1) p)
             (CDiskBlockPos.mk (-1) q) = false).
Proof.
  split; [apply CDiskBlockPos_eq_true|]. split; [|split; [reflexivity|split]].
  - unfold CDiskBlockPos.neq. rewrite negb_true_iff, <- not_true_iff_false.
    now rewrite CDiskBlockPos_eq_true.
  - unfold CDiskBlockPos.IsNull. apply Z.eqb_eq.
  - intros p q Hpq. split; [reflexivity|]. split; [reflexivity|].
    apply not_true_iff_false. rewrite CDiskBlockPos_eq_true.
    intros [= E]. contradiction.
Qed.

(** X4. A disk position that is written and then read comes back as it
    was, whatever the position read into held, and the read consumes
    exactly what was written. *)
Theorem CDiskBlockPos_round_trip {tok : Type} (W : Wire tok)
    (pos target : CDiskBlockPos.t) (rest : list tok) :
  codec_ok (VARINT W) ->
  CDiskBlockPos.Unserialize W target (CDiskBlockPos.Serialize W pos ++ rest)
    = Ret (pos, rest).
Proof.
  intros HV. unfold CDiskBlockPos.Unserialize, CDiskBlockPos.Serialize.
  cbn [app]. rewrite <- app_assoc.
  rewrite (rd_put _ _ _ HV). cbn [bind].
  rewrite (rd_put _ _ _ HV). cbn [bind].
  now destruct pos.
Qed.

Lemma CDiskBlockPos_round_trip_witness :
  CDiskBlockPos.Unserialize token_wire CDiskBlockPos.SetNull
    (CDiskBlockPos.Serialize token_wire some_pos ++ [7])
  = Ret (some_pos, [7]).
Proof.
  apply (CDiskBlockPos_round_trip token_wire some_pos CDiskBlockPos.SetNull
           [7]).
  apply token_wire_ok.
Defined.

Lemma have_flag_bit (s : Z) (k : Z) :
  0 <= k -> truthy (Z.land s (2 ^ k)) = Z.testbit s k.
Proof.
  intros Hk. unfold truthy.
  destruct (Z.testbit s k) eqn:Hb.
  - apply negb_true_iff, Z.eqb_neq. intros Hz.
    pose proof (f_equal (fun z => Z.testbit z k) Hz) as E. cbv beta in E.
    rewrite Z.land_spec, Hb, Z.pow2_bits_true, Z.bits_0 in E by lia.
    discriminate.
  - apply negb_false_iff, Z.eqb_eq. apply Z.bits_inj'. intros i Hi.
    rewrite Z.land_spec, Z.bits_0, Z.pow2_bits_eqb by lia.
    destruct (Z.eqb_spec k i) as [<-|]; [now rewrite Hb | apply andb_false_r].
Qed.

Lemma has_data_bit (b : CBlockIndex) : has_data b = Z.testbit (nStatus b) 3.
Proof. apply (have_flag_bit _ 3). lia. Qed.

Lemma has_undo_bit (b : CBlockIndex) : has_undo b = Z.testbit (nStatus b) 4.
Proof. apply (have_flag_bit _ 4). lia. Qed.

Lemma has_file_bits (b : CBlockIndex) :
  has_file b = has_data b || has_undo b.
Proof.
  rewrite has_data_bit, has_undo_bit. unfold has_file, truthy.
  destruct (Z.testbit (nStatus b) 3) eqn:H3.
  - apply negb_true_iff, Z.eqb_neq. intros Hz.
    pose proof (f_equal (fun z => Z.testbit z 3) Hz) as E. cbv beta in E.
    rewrite Z.land_spec, H3, Z.bits_0 in E. discriminate.
  - destruct (Z.testbit (nStatus b) 4) eqn:H4.
    + apply negb_true_iff, Z.eqb_neq. intros Hz.
      pose proof (f_equal (fun z => Z.testbit z 4) Hz) as E. cbv beta in E.
      rewrite Z.land_spec, H4, Z.bits_0 in E. discriminate.
    + apply negb_false_iff, Z.eqb_eq. apply Z.bits_inj'. intros i Hi.
      rewrite Z.land_spec, Z.bits_0.
      change (Z.lor BLOCK_HAVE_DATA BLOCK_HAVE_UNDO)
        with (Z.lor (2 ^ 3) (2 ^ 4)).
      rewrite Z.lor_spec, !Z.pow2_bits_eqb by lia.
      destruct (Z.eqb_spec 3 i) as [<-|]; [now rewrite H3|].
      destruct (Z.eqb_spec 4 i) as [<-|]; [now rewrite H4|].
      apply andb_false_r.
Qed.

(** ** What raising the validity leaves alone *)

Lemma RaiseValidity_cases (this : CBlockIndex) (nUpTo : Z) :
  only_validity_flags nUpTo = true ->
  RaiseValidity this nUpTo = Ret (false, this)
  \/ (~ failed this /\ stage this < nUpTo
      /\ RaiseValidity this nUpTo = Ret (true, raised this nUpTo)).
Proof.
  intros Hu. destruct (Z.eq_dec (Z.land (nStatus this) BLOCK_FAILED_MASK) 0)
    as [Hz|Hnz].
  - assert (Hnf : ~ failed this) by (unfold failed; tauto).
    rewrite (RaiseValidity_sound this nUpTo Hnf Hu).
    destruct (stage this <? nUpTo) eqn:Hlt; [right | now left].
    apply Z.ltb_lt in Hlt. auto.
  - left. now apply RaiseValidity_failed.
Qed.

Lemma raised_outside_mask (this : CBlockIndex) (nUpTo m : Z) :
  only_validity_flags nUpTo = true ->
  Z.land (Z.lnot BLOCK_VALID_MASK) m = m ->
  Z.land (nStatus (raised this nUpTo)) m = Z.land (nStatus this) m.
Proof.
  intros Hu Hm. apply only_validity_flags_range in Hu.
  unfold raised. cbn [nStatus set_nStatus].
  rewrite <- Hm, !Z.land_assoc. f_equal. now apply other_bits_kept.
Qed.

(** X5. [RaiseValidity] changes nothing but the validity stage: after
    any call that returns, every bit of the status outside
    [BLOCK_VALID_MASK] is as before, so the availability flags and both
    failure bits are as before and [GetBlockPos] and [GetUndoPos] answer
    as before, and every field other than [nStatus] is untouched. *)
Theorem RaiseValidity_frame (this this' : CBlockIndex) (nUpTo : Z)
    (changed : bool) :
  RaiseValidity this nUpTo = Ret (changed, this') ->
  GetBlockPos this' = GetBlockPos this
  /\ GetUndoPos this' = GetUndoPos this
  /\ (failed this' <-> failed this)
  /\ Z.land (nStatus this') BLOCK_HAVE_MASK
     = Z.land (nStatus this) BLOCK_HAVE_MASK
  /\ Z.land (nStatus this') BLOCK_FAILED_MASK
     = Z.land (nStatus this) BLOCK_FAILED_MASK
  /\ Z.land (nStatus this') (Z.lnot BLOCK_VALID_MASK)
     = Z.land (nStatus this) (Z.lnot BLOCK_VALID_MASK)
  /\ (forall i, 3 <= i ->
        Z.testbit (nStatus this') i = Z.testbit (nStatus this) i)
  /\ set_nStatus (nStatus this) this' = this.
Proof.
  intros Hrun.
  assert (Hu : only_validity_flags nUpTo = true).
  { unfold RaiseValidity in Hrun.
    destruct (only_validity_flags nUpTo); [reflexivity | discriminate]. }
  destruct (RaiseValidity_cases this nUpTo Hu) as [E|(_ & _ & E)];
    rewrite E in Hrun; injection Hrun as <- <-.
  - repeat split; try tauto. now destruct this.
  - assert (Hm : forall m, Z.land (Z.lnot BLOCK_VALID_MASK) m = m ->
              Z.land (nStatus (raised this nUpTo)) m = Z.land (nStatus this) m)
      by (intros m; now apply raised_outside_mask).
    assert (Hbits : forall i, 3 <= i ->
              Z.testbit (nStatus (raised this nUpTo)) i
              = Z.testbit (nStatus this) i).
    { intros i Hi.
      pose proof (f_equal (fun z => Z.testbit z i)
                    (Hm (Z.lnot BLOCK_VALID_MASK) eq_refl)) as Eb.
      cbv beta in Eb. rewrite !Z.land_spec in Eb.
      replace (Z.testbit (Z.lnot BLOCK_VALID_MASK) i) with true in Eb.
      - now rewrite !andb_true_r in Eb.
      - rewrite Z.lnot_spec by lia. change BLOCK_VALID_MASK with (Z.ones 3).
        rewrite Z.ones_spec_high by lia. reflexivity. }
    unfold GetBlockPos, GetUndoPos, failed.
    rewrite (Hm BLOCK_HAVE_DATA), (Hm BLOCK_HAVE_UNDO), (Hm BLOCK_FAILED_MASK),
      (Hm BLOCK_HAVE_MASK), (Hm (Z.lnot BLOCK_VALID_MASK)) by reflexivity.
    unfold raised at 1 2 3 4 5 6. cbn [nFile nDataPos nUndoPos set_nStatus].
    repeat split; try tauto; try exact Hbits. now destruct this.
Qed.

Lemma RaiseValidity_frame_witness :
  GetBlockPos (raised stored_entry BLOCK_VALID_SCRIPTS)
    = CDiskBlockPos.mk 2 4096
  /\ GetUndoPos (raised stored_entry BLOCK_VALID_SCRIPTS)
     = CDiskBlockPos.mk 2 128.
Proof.
  destruct (RaiseValidity_frame stored_entry
              (raised stored_entry BLOCK_VALID_SCRIPTS) BLOCK_VALID_SCRIPTS
              true eq_refl) as (H1 & H2 & _).
  split; [exact H1 | exact H2].
Defined.

(** ** Validity arguments and levels *)

(** X6. [IsValid] and [RaiseValidity] stop at their assertion exactly
    when the argument is not one of the values 0 to 7, the values without
    a bit outside [BLOCK_VALID_MASK]; the availability and failure flags
    are therefore refused, while 6 and 7, which name no stage, are
    accepted. *)
Theorem validity_argument_checked (this : CBlockIndex) (nUpTo : Z) :
  (IsValid this nUpTo = Err AssertionFailed <-> ~ (0 <= nUpTo <= 7))
  /\ (RaiseValidity this nUpTo = Err AssertionFailed <-> ~ (0 <= nUpTo <= 7))
  /\ (0 <= nUpTo <= 7 ->
        exists v r, IsValid this nUpTo = Ret v
                    /\ RaiseValidity this nUpTo = Ret r)
  /\ IsValid this BLOCK_HAVE_DATA = Err AssertionFailed
  /\ IsValid this BLOCK_FAILED_VALID = Err AssertionFailed
  /\ (exists v, IsValid this BLOCK_VALID_MASK = Ret v).
Proof.
  pose proof (only_validity_flags_range nUpTo) as Hr.
  unfold IsValid, RaiseValidity.
  destruct (only_validity_flags nUpTo); cbn [assert bind].
  - assert (H07 : 0 <= nUpTo <= 7) by now apply Hr.
    split; [|split; [|split]].
    + split; [|tauto].
      destruct (truthy (Z.land (nStatus this) BLOCK_FAILED_MASK)); discriminate.
    + split; [|tauto].
      destruct (truthy (Z.land (nStatus this) BLOCK_FAILED_MASK));
        [discriminate|].
      destruct (Z.land (nStatus this) BLOCK_VALID_MASK <? nUpTo); discriminate.
    + intros _.
      destruct (truthy (Z.land (nStatus this) BLOCK_FAILED_MASK));
        [now eexists _, _|].
      destruct (Z.land (nStatus this) BLOCK_VALID_MASK <? nUpTo);
        now eexists _, _.
    + split; [reflexivity|]. split; [reflexivity|].
      destruct (truthy (Z.land (nStatus this) BLOCK_FAILED_MASK));
        now eexists.
  - assert (H07 : ~ (0 <= nUpTo <= 7)).
    { intros H. apply Hr in H. discriminate. }
    split; [tauto|]. split; [tauto|]. split; [tauto|].
    split; [reflexivity|]. split; [reflexivity|].
    destruct (truthy (Z.land (nStatus this) BLOCK_FAILED_MASK)); now eexists.
Qed.

Lemma IsValid_sound (this : CBlockIndex) (nUpTo : Z) :
  ~ failed this -> only_validity_flags nUpTo = true ->
  IsValid this nUpTo = Ret (nUpTo <=? stage this).
Proof.
  intros Hnf Hu. unfold IsValid. rewrite Hu. cbn [assert bind].
  now rewrite not_failed_truthy.
Qed.

Lemma stage_range (this : CBlockIndex) : 0 <= stage this <= 7.
Proof.
  unfold stage. rewrite land_valid_mask.
  pose proof (Z.mod_pos_bound (nStatus this) 8 ltac:(lia)). lia.
Qed.

(** X7. On an entry without a failure marker, once [RaiseValidity] has
    been called with [nUpTo], whether or not it changed anything, the
    entry is valid up to [nUpTo]; it is valid up to a level exactly when
    that level is at most the larger of the old stage and [nUpTo]. *)
Theorem IsValid_after_RaiseValidity (this this' : CBlockIndex) (nUpTo : Z)
    (changed : bool) :
  ~ failed this ->
  RaiseValidity this nUpTo = Ret (changed, this') ->
  IsValid this' nUpTo = Ret true
  /\ stage this' = Z.max (stage this) nUpTo
  /\ (forall level, only_validity_flags level = true ->
        IsValid this' level = Ret (level <=? Z.max (stage this) nUpTo)).
Proof.
  intros Hnf Hrun.
  assert (Hu : only_validity_flags nUpTo = true).
  { unfold RaiseValidity in Hrun.
    destruct (only_validity_flags nUpTo); [reflexivity | discriminate]. }
  rewrite (RaiseValidity_sound this nUpTo Hnf Hu) in Hrun.
  assert (Hst : stage this' = Z.max (stage this) nUpTo /\ ~ failed this').
  { destruct (stage this <? nUpTo) eqn:Hlt; injection Hrun as <- <-.
    - apply Z.ltb_lt in Hlt. rewrite raised_stage by assumption.
      split; [lia | now apply raised_still_sound].
    - apply Z.ltb_ge in Hlt. split; [lia | assumption]. }
  destruct Hst as [Hst Hnf'].
  split; [|split; [exact Hst|]].
  - rewrite (IsValid_sound this' nUpTo Hnf' Hu), Hst. f_equal.
    apply Z.leb_le. lia.
  - intros level Hl. now rewrite (IsValid_sound this' level Hnf' Hl), Hst.
Qed.

Lemma IsValid_after_RaiseValidity_witness :
  IsValid (raised header_entry BLOCK_VALID_CHAIN) BLOCK_VALID_CHAIN = Ret true
  /\ IsValid (raised header_entry BLOCK_VALID_CHAIN) BLOCK_VALID_TREE
     = Ret true
  /\ IsValid (raised header_entry BLOCK_VALID_CHAIN) BLOCK_VALID_SCRIPTS
     = Ret false.
Proof.
  assert (Hnf : ~ failed header_entry).
  { unfold failed. intros H. apply H. reflexivity. }
  destruct (IsValid_after_RaiseValidity header_entry
              (raised header_entry BLOCK_VALID_CHAIN) BLOCK_VALID_CHAIN true
              Hnf eq_refl) as (H1 & _ & H3).
  split; [exact H1|].
  split; [exact (H3 BLOCK_VALID_TREE eq_refl)
         | exact (H3 BLOCK_VALID_SCRIPTS eq_refl)].
Defined.

Lemma foldr_max_start (s u : Z) (l : list Z) :
  foldr Z.max (Z.max s u) l = Z.max u (foldr Z.max s l).
Proof. induction l as [|x l IH]; cbn; lia. Qed.

(** X8. On an entry without a failure marker, a run of [RaiseValidity]
    calls returns, and leaves as the stage the largest of the old stage
    and the arguments, in whatever order they came; the entry still has
    no failure marker. *)
Theorem RaiseValidity_seq_max (calls : list Z) (this : CBlockIndex) :
  ~ failed this ->
  Forall (fun u => only_validity_flags u = true) calls ->
  exists results this',
    RaiseValidity_seq this calls = Ret (results, this')
    /\ length results = length calls
    /\ stage this' = foldr Z.max (stage this) calls
    /\ ~ failed this'.
Proof.
  intros Hnf Hall. revert this Hnf.
  induction Hall as [|u calls Hu _ IH]; intros this Hnf.
  - exists [], this. now repeat split.
  - cbn [RaiseValidity_seq]. rewrite (RaiseValidity_sound this u Hnf Hu).
    set (this1 := if stage this <? u then raised this u else this).
    assert (H1 : stage this1 = Z.max (stage this) u /\ ~ failed this1).
    { unfold this1. destruct (stage this <? u) eqn:Hlt.
      - apply Z.ltb_lt in Hlt. rewrite raised_stage by assumption.
        split; [lia | now apply raised_still_sound].
      - apply Z.ltb_ge in Hlt. split; [lia | assumption]. }
    destruct H1 as [Hst1 Hnf1].
    destruct (IH this1 Hnf1) as (rs & this' & Hrun & Hlen & Hst & Hnf').
    exists ((stage this <? u) :: rs), this'.
    split; [|split; [cbn; congruence|split; [|exact Hnf']]].
    + unfold this1 in Hrun.
      destruct (stage this <? u); cbn [bind]; now rewrite Hrun.
    + rewrite Hst, Hst1. cbn [foldr]. apply foldr_max_start.
Qed.

Lemma RaiseValidity_seq_max_witness :
  exists results this',
    RaiseValidity_seq header_entry
      [BLOCK_VALID_CHAIN; BLOCK_VALID_TREE; BLOCK_VALID_SCRIPTS]
      = Ret (results, this')
    /\ length results = 3%nat
    /\ stage this' = BLOCK_VALID_SCRIPTS
    /\ ~ failed this'.
Proof.
  assert (Hnf : ~ failed header_entry).
  { unfold failed. intros H. apply H. reflexivity. }
  apply (RaiseValidity_seq_max
           [BLOCK_VALID_CHAIN; BLOCK_VALID_TREE; BLOCK_VALID_SCRIPTS]
           header_entry Hnf).
  repeat constructor.
Defined.

(** ** The three stake flags *)

Lemma modifier_flag_bit (f : Z) :
  truthy (Z.land f BLOCK_STAKE_MODIFIER) = Z.testbit f 2.
Proof. apply (have_flag_bit f 2). lia. Qed.

Lemma entropy_bit_truthy (f : Z) :
  truthy (Z.land f BLOCK_STAKE_ENTROPY) = Z.testbit f 1.
Proof. apply (have_flag_bit f 1). lia. Qed.



(** ** Proof-of-stake detail *)

Lemma lor_pos_twice (f : Z) :
  Z.lor (Z.lor f BLOCK_PROOF_OF_STAKE) BLOCK_PROOF_OF_STAKE
  = Z.lor f BLOCK_PROOF_OF_STAKE.
Proof. now rewrite <- Z.lor_assoc, Z.lor_diag. Qed.

Lemma pos_flag_other_bits (f i : Z) :
  i <> 0 -> Z.testbit (Z.lor f BLOCK_PROOF_OF_STAKE) i = Z.testbit f i.
Proof.
  intros Hi. rewrite Z.lor_spec.
  replace (Z.testbit BLOCK_PROOF_OF_STAKE i) with false;
    [apply orb_false_r|].
  destruct (Z.lt_ge_cases i 0) as [Hneg|Hpos].
  - symmetry. now apply Z.testbit_neg_r.
  - change BLOCK_PROOF_OF_STAKE with (2 ^ 0).
    rewrite Z.pow2_bits_eqb by lia. symmetry. apply Z.eqb_neq. lia.
Qed.

(** X10. [SetPOSDetail] is idempotent: a second call with the same block
    changes nothing.  It writes the detail flag, the stake outpoint, the
    stake time and the proof-of-stake bit and nothing else: of [nFlags]
    it sets bit 0 for a proof-of-stake block and touches no other bit, so
    the entropy bit and the generated-modifier flag are as before, and
    every other field is untouched.  The stake fields are the block's for
    a proof-of-stake block and null and zero for any other, and the
    proof-of-stake bit is never cleared. *)
Theorem SetPOSDetail_idempotent (this : CBlockIndex) (block : CBlock) :
  let this' := SetPOSDetail this block in
  SetPOSDetail this' block = this'
  /\ POSDetailSet this' = true
  /\ prevoutStake this' =
       (if blk_IsProofOfStake block then blk_vtx1_vin0_prevout block
        else COutPoint_null)
  /\ nStakeTime this' =
       (if blk_IsProofOfStake block then blk_vtx1_nTime block else 0)
  /\ pos_bit this' = pos_bit this || blk_IsProofOfStake block
  /\ nFlags this' =
       (if blk_IsProofOfStake block
        then Z.lor (nFlags this) BLOCK_PROOF_OF_STAKE else nFlags this)
  /\ (forall i, i <> 0 ->
        Z.testbit (nFlags this') i = Z.testbit (nFlags this) i)
  /\ GetStakeEntropyBit this' = GetStakeEntropyBit this
  /\ GeneratedStakeModifier this' = GeneratedStakeModifier this
  /\ set_POSDetailSet (POSDetailSet this)
       (set_prevoutStake (prevoutStake this)
          (set_nStakeTime (nStakeTime this)
             (set_nFlags (nFlags this) this'))) = this.
Proof.
  cbv zeta. unfold pos_bit, GeneratedStakeModifier.
  rewrite !pos_flag_bit, !GetStakeEntropyBit_bit, !modifier_flag_bit.
  unfold SetPOSDetail, SetProofOfStake.
  destruct (blk_IsProofOfStake block); fields.
  - rewrite lor_pos_twice, Z.lor_spec.
    change (Z.testbit BLOCK_PROOF_OF_STAKE 0) with true.
    rewrite orb_true_r, !pos_flag_other_bits by lia.
    repeat split; try (now destruct this).
    intros i Hi. now apply pos_flag_other_bits.
  - rewrite orb_false_r. repeat split. now destruct this.
Qed.

(** X11. An entry made from a header alone has no proof-of-stake
    detail: [IsProofOfStake] stops at its assertion, while
    [IsProofOfWork] answers true.  Once [SetPOSDetail] has seen the
    block, [IsProofOfStake] returns what the block says and
    [IsProofOfWork] the opposite, so for a proof-of-stake block the
    answer of [IsProofOfWork] changes from true to false. *)
Theorem header_only_entry_stake_status (header : CBlockHeader.t)
    (block : CBlock) :
  let this := CBlockIndex_of_header header in
  IsProofOfStake this = Err AssertionFailed
  /\ IsProofOfWork this = Ret true
  /\ IsProofOfStake (SetPOSDetail this block)
     = Ret (blk_IsProofOfStake block)
  /\ IsProofOfWork (SetPOSDetail this block)
     = Ret (negb (blk_IsProofOfStake block)).
Proof.
  cbv zeta. split; [reflexivity|]. split; [reflexivity|].
  unfold SetPOSDetail. destruct (blk_IsProofOfStake block); now split.
Qed.

(** ** Headers and hashes *)

(** X12. The header got back from an entry made from a header has the
    header's version, merkle root, time, bits and nonce; its previous
    hash is zero whatever the header said, since the constructor sets no
    parent. *)
Theorem GetBlockHeader_of_header (heap : gmap loc CBlockIndex)
    (header : CBlockHeader.t) :
  GetBlockHeader heap (CBlockIndex_of_header header)
  = Ret (CBlockHeader.mk (CBlockHeader.nVersion header) 0
           (CBlockHeader.hashMerkleRoot header) (CBlockHeader.nTime header)
           (CBlockHeader.nBits header) (CBlockHeader.nNonce header))
  /\ (GetBlockHeader heap (CBlockIndex_of_header header) = Ret header
      <-> CBlockHeader.hashPrevBlock header = 0).
Proof.
  assert (E : GetBlockHeader heap (CBlockIndex_of_header header)
    = Ret (CBlockHeader.mk (CBlockHeader.nVersion header) 0
             (CBlockHeader.hashMerkleRoot header) (CBlockHeader.nTime header)
             (CBlockHeader.nBits header) (CBlockHeader.nNonce header)))
    by reflexivity.
  split; [exact E|]. rewrite E. destruct header as [v hp m t b n]. cbn.
  split; [intros [= <-]; reflexivity | intros ->; reflexivity].
Qed.

(** X13. The record built from an entry stands for the header
    [GetBlockHeader] gives for that entry: building the record fails
    exactly when [GetBlockHeader] fails, and otherwise the header the
    record hashes is that header. *)
Theorem disk_record_header_is_block_header (heap : gmap loc CBlockIndex)
    (pindex : loc) (node : CBlockIndex) :
  heap !! pindex = Some node ->
  (do r <- CDiskBlockIndex_of heap pindex; Ret (header_of r))
  = GetBlockHeader heap node.
Proof.
  intros Hnode. unfold CDiskBlockIndex_of, GetBlockHeader. rewrite Hnode.
  destruct (pprev node) as [p|]; [|reflexivity].
  destruct (heap !! p) as [parent|]; [|reflexivity].
  destruct (GetBlockHash parent); reflexivity.
Qed.

Lemma disk_record_header_is_block_header_witness :
  (do r <- CDiskBlockIndex_of two_block_heap 2%positive; Ret (header_of r))
  = GetBlockHeader two_block_heap child_node.
Proof.
  apply (disk_record_header_is_block_header two_block_heap 2%positive
           child_node).
  reflexivity.
Defined.

Lemma header_of_set_blockHash (v : uint256) (this : CDiskBlockIndex) :
  header_of (set_blockHash v this) = header_of this.
Proof. reflexivity. Qed.

Lemma GetBlockHash_miss (GetHash : CBlockHeader.t -> uint256) fast adjusted
    this :
  ~ cache_hit fast adjusted this ->
  CDiskBlockIndex_GetBlockHash GetHash fast adjusted this
  = mkHashCall (GetHash (header_of this))
      (set_blockHash (GetHash (header_of this)) this) [header_of this].
Proof.
  intros Hmiss. unfold CDiskBlockIndex_GetBlockHash.
  pose proof (cache_hit_test fast adjusted this) as Htest.
  destruct (fast && (nTime (base this) <? adjusted - 24 * 60 * 60)
            && negb (blockHash this =? 0)); [|reflexivity].
  exfalso. apply Hmiss, Htest. reflexivity.
Qed.

Lemma GetBlockHash_hit (GetHash : CBlockHeader.t -> uint256) fast adjusted
    this :
  cache_hit fast adjusted this ->
  CDiskBlockIndex_GetBlockHash GetHash fast adjusted this
  = mkHashCall (blockHash this) this [].
Proof.
  intros Hhit. unfold CDiskBlockIndex_GetBlockHash.
  apply (cache_hit_test fast adjusted this) in Hhit. now rewrite Hhit.
Qed.

Lemma cache_hit_dec fast adjusted this :
  cache_hit fast adjusted this \/ ~ cache_hit fast adjusted this.
Proof.
  pose proof (cache_hit_test fast adjusted this) as Htest.
  destruct (fast && (nTime (base this) <? adjusted - 24 * 60 * 60)
            && negb (blockHash this =? 0)).
  - left. now apply Htest.
  - right. intros H. apply Htest in H. discriminate.
Qed.

(** X14. Calling [GetBlockHash] again under the same flag and time
    returns the same hash and leaves the record as the first call left
    it.  Once a call has computed the hash, every later call returns that
    hash, under any flag and any time; a call that takes the cached hash
    makes no such promise, since the cached hash is never compared with
    the header. *)
Theorem GetBlockHash_stable (GetHash : CBlockHeader.t -> uint256)
    (fUseFastIndex : bool) (adjusted_time : Z) (this : CDiskBlockIndex) :
  let first := CDiskBlockIndex_GetBlockHash GetHash fUseFastIndex
                 adjusted_time this in
  (let second := CDiskBlockIndex_GetBlockHash GetHash fUseFastIndex
                   adjusted_time (after first) in
   returned second = returned first /\ after second = after first)
  /\ (hashed first <> [] ->
        forall flag time,
          let later := CDiskBlockIndex_GetBlockHash GetHash flag time
                         (after first) in
          returned later = returned first /\ after later = after first).
Proof.
  cbv zeta.
  assert (Hlater : ~ cache_hit fUseFastIndex adjusted_time this ->
    forall flag time,
      returned (CDiskBlockIndex_GetBlockHash GetHash flag time
                  (after (CDiskBlockIndex_GetBlockHash GetHash fUseFastIndex
                            adjusted_time this)))
      = returned (CDiskBlockIndex_GetBlockHash GetHash fUseFastIndex
                    adjusted_time this)
      /\ after (CDiskBlockIndex_GetBlockHash GetHash flag time
                  (after (CDiskBlockIndex_GetBlockHash GetHash fUseFastIndex
                            adjusted_time this)))
         = after (CDiskBlockIndex_GetBlockHash GetHash fUseFastIndex
                    adjusted_time this)).
  { intros Hmiss flag time. rewrite (GetBlockHash_miss _ _ _ _ Hmiss).
    cbn [after returned].
    destruct (cache_hit_dec flag time
                (set_blockHash (GetHash (header_of this)) this)) as [H|H].
    - rewrite (GetBlockHash_hit _ _ _ _ H). now split.
    - rewrite (GetBlockHash_miss _ _ _ _ H), header_of_set_blockHash.
      now split. }
  split.
  - destruct (cache_hit_dec fUseFastIndex adjusted_time this) as [H|H].
    + rewrite (GetBlockHash_hit _ _ _ _ H). cbn [after].
      rewrite (GetBlockHash_hit _ _ _ _ H). now split.
    + now apply Hlater.
  - intros Hne. apply Hlater. intros Hhit.
    rewrite (GetBlockHash_hit _ _ _ _ Hhit) in Hne. now apply Hne.
Qed.

(** ** More on the disk round trip *)

Lemma round_trip_decoded {tok : Type} (W : Wire tok)
    (SER_GETHASH nType nVersionPar : Z) (heap : gmap loc CBlockIndex)
    (pindex : loc) (node : CBlockIndex) (hp : uint256)
    (t : CDiskBlockIndex) (rest : list tok) :
  wire_ok W ->
  heap !! pindex = Some node ->
  parent_hash heap node = Some hp ->
  round_trip W SER_GETHASH nType nVersionPar heap pindex t rest
  = Ret (decoded (mkCDiskBlockIndex node 0 hp) t, rest).
Proof.
  intros HW Hnode Hparent. unfold round_trip.
  rewrite (CDiskBlockIndex_of_ret _ _ _ _ Hnode Hparent). cbn [bind].
  destruct (Serialize_returns W SER_GETHASH nType nVersionPar
              (mkCDiskBlockIndex node 0 hp)) as [w Hw].
  rewrite Hw. cbn [bind].
  exact (Unserialize_Serialize W SER_GETHASH HW _ _ _ _ _ _ _ Hw).
Qed.

Lemma GetBlockHeader_parent_hash (heap : gmap loc CBlockIndex)
    (node : CBlockIndex) (hp : uint256) :
  parent_hash heap node = Some hp ->
  GetBlockHeader heap node = Ret (header_of (mkCDiskBlockIndex node 0 hp)).
Proof.
  unfold parent_hash, GetBlockHeader. intros Hp.
  destruct (pprev node) as [p|].
  - destruct (heap !! p) as [parent|]; [|discriminate]. cbn in Hp.
    unfold GetBlockHash. rewrite Hp. reflexivity.
  - now injection Hp as <-.
Qed.

(** X15. What a caller can find out about the disk positions survives
    the disk round trip: [GetBlockPos] and [GetUndoPos] of the record
    read back are those of the entry, although the file number and the
    offsets themselves are only written under their flags. *)
Theorem round_trip_keeps_positions {tok : Type} (W : Wire tok)
    (SER_GETHASH nType nVersionPar : Z) (heap : gmap loc CBlockIndex)
    (pindex : loc) (node : CBlockIndex) (hp : uint256)
    (t : CDiskBlockIndex) (rest : list tok) :
  wire_ok W ->
  heap !! pindex = Some node ->
  parent_hash heap node = Some hp ->
  exists d,
    round_trip W SER_GETHASH nType nVersionPar heap pindex t rest
      = Ret (d, rest)
    /\ GetBlockPos (base d) = GetBlockPos node
    /\ GetUndoPos (base d) = GetUndoPos node.
Proof.
  intros HW Hnode Hparent. eexists. split.
  - exact (round_trip_decoded W SER_GETHASH nType nVersionPar heap pindex
             node hp t rest HW Hnode Hparent).
  - unfold GetBlockPos, GetUndoPos, decoded. fields.
    rewrite (has_file_bits node).
    fold (has_data node) (has_undo node).
    destruct (has_data node), (has_undo node); now split.
Qed.

Lemma round_trip_keeps_positions_witness :
  exists d,
    round_trip token_wire SER_GETHASH_value SER_DISK_value 1 two_block_heap
      2%positive CDiskBlockIndex_default []
      = Ret (d, [])
    /\ GetBlockPos (base d) = GetBlockPos child_node
    /\ GetUndoPos (base d) = GetUndoPos child_node.
Proof.
  apply (round_trip_keeps_positions token_wire SER_GETHASH_value
           SER_DISK_value 1 two_block_heap 2%positive child_node 111
           CDiskBlockIndex_default []).
  - exact token_wire_ok.
  - reflexivity.
  - reflexivity.
Defined.

(** X16. The record read back hashes to what the entry hashes to: its
    header is the header [GetBlockHeader] gives for the entry, so with
    the fast index off [GetBlockHash] on the record returns the hash of
    that header. *)
Theorem round_trip_keeps_block_hash {tok : Type} (W : Wire tok)
    (SER_GETHASH nType nVersionPar : Z) (heap : gmap loc CBlockIndex)
    (pindex : loc) (node : CBlockIndex) (hp : uint256)
    (t : CDiskBlockIndex) (rest : list tok)
    (GetHash : CBlockHeader.t -> uint256) (adjusted_time : Z) :
  wire_ok W ->
  heap !! pindex = Some node ->
  parent_hash heap node = Some hp ->
  exists d header,
    round_trip W SER_GETHASH nType nVersionPar heap pindex t rest
      = Ret (d, rest)
    /\ GetBlockHeader heap node = Ret header
    /\ header_of d = header
    /\ returned (CDiskBlockIndex_GetBlockHash GetHash false adjusted_time d)
       = GetHash header.
Proof.
  intros HW Hnode Hparent.
  exists (decoded (mkCDiskBlockIndex node 0 hp) t),
         (header_of (mkCDiskBlockIndex node 0 hp)).
  split; [|split; [|split]].
  - exact (round_trip_decoded W SER_GETHASH nType nVersionPar heap pindex
             node hp t rest HW Hnode Hparent).
  - now apply GetBlockHeader_parent_hash.
  - reflexivity.
  - rewrite GetBlockHash_miss; [reflexivity|].
    intros (Hfast & _). discriminate.
Qed.

Lemma round_trip_keeps_block_hash_witness :
  exists d header,
    round_trip token_wire SER_GETHASH_value SER_DISK_value 1 two_block_heap
      2%positive CDiskBlockIndex_default []
      = Ret (d, [])
    /\ GetBlockHeader two_block_heap child_node = Ret header
    /\ header_of d = header
    /\ returned (CDiskBlockIndex_GetBlockHash CBlockHeader.nTime false 0 d)
       = CBlockHeader.nTime header.
Proof.
  apply (round_trip_keeps_block_hash token_wire SER_GETHASH_value
           SER_DISK_value 1 two_block_heap 2%positive child_node 111
           CDiskBlockIndex_default [] CBlockHeader.nTime 0).
  - exact token_wire_ok.
  - reflexivity.
  - reflexivity.
Defined.

(** ** Membership in the active chain *)

Lemma CChain_at_lookup (c : CChain) (h : Z) :
  vector_size c < 2 ^ 31 ->
  CChain_at c h =
    Ret (if (0 <=? h) then default None (c !! Z.to_nat h) else None).
Proof.
  intros Hfit. destruct (Z.leb_spec 0 h) as [Hh|Hh].
  - destruct (Z.lt_ge_cases h (vector_size c)) as [Hin|Hout].
    + destruct (CChain_at_inside c h Hfit) as (p & Hp & ->); [lia|].
      now rewrite Hp.
    + rewrite CChain_at_outside by (assumption || lia).
      replace (c !! Z.to_nat h) with (@None (option loc)); [reflexivity|].
      symmetry. apply lookup_ge_None_2. unfold vector_size in Hout. lia.
  - apply CChain_at_outside; [assumption | lia].
Qed.

(** X17. [Contains] is true exactly when the entry's height is not
    negative and the chain stores the entry's own address at that height;
    an entry with a negative height, or a height at or above the length
    of the chain, is in no chain.  A null pointer is dereferenced. *)
Theorem Contains_exactly (heap : gmap loc CBlockIndex) (c : CChain)
    (a : loc) (node : CBlockIndex) :
  vector_size c < 2 ^ 31 ->
  heap !! a = Some node ->
  exists inside,
    Contains heap c (Some a) = Ret inside
    /\ (inside = true <->
          0 <= nHeight node
          /\ c !! Z.to_nat (nHeight node) = Some (Some a))
    /\ (nHeight node < 0 \/ vector_size c <= nHeight node -> inside = false)
    /\ Contains heap c None = Err UndefinedBehaviour.
Proof.
  intros Hfit Hnode. unfold Contains. rewrite Hnode.
  rewrite (CChain_at_lookup c _ Hfit). cbn [bind].
  eexists. split; [reflexivity|].
  assert (Hiff : bool_decide
            ((if 0 <=? nHeight node
              then default None (c !! Z.to_nat (nHeight node)) else None)
             = Some a) = true
          <-> 0 <= nHeight node
              /\ c !! Z.to_nat (nHeight node) = Some (Some a)).
  { rewrite bool_decide_eq_true.
    destruct (Z.leb_spec 0 (nHeight node)) as [Hh|Hh].
    - destruct (c !! Z.to_nat (nHeight node)) as [p|]; cbn.
      + split; [intros ->; now split | intros [_ [= ->]]; reflexivity].
      + split; [discriminate | intros [_ [=]]].
    - split; [discriminate | lia]. }
  split; [exact Hiff|]. split; [|reflexivity].
  intros Hout. apply not_true_iff_false. rewrite Hiff.
  intros [Hge Hlook]. apply lookup_lt_Some in Hlook.
  unfold vector_size in Hout. lia.
Qed.

Lemma Contains_exactly_witness :
  exists inside,
    Contains forked_heap three_chain (Some 4%positive) = Ret inside
    /\ (inside = true <->
          0 <= nHeight (entry_at 1 (Some 1%positive) 404)
          /\ three_chain
               !! Z.to_nat (nHeight (entry_at 1 (Some 1%positive) 404))
             = Some (Some 4%positive))
    /\ (nHeight (entry_at 1 (Some 1%positive) 404) < 0
        \/ vector_size three_chain
           <= nHeight (entry_at 1 (Some 1%positive) 404) ->
        inside = false)
    /\ Contains forked_heap three_chain None = Err UndefinedBehaviour.
Proof.
  apply (Contains_exactly forked_heap three_chain 4%positive
           (entry_at 1 (Some 1%positive) 404)).
  - vm_compute. reflexivity.
  - reflexivity.
Defined.

Lemma chain_wf_entry heap (c : CChain) (h : nat) (p : option loc) :
  chain_wf heap c -> c !! h = Some p ->
  exists a node, p = Some a /\ heap !! a = Some node
                 /\ nHeight node = Z.of_nat h.
Proof.
  intros Hwf Hp. destruct (Hwf h p Hp) as (a & node & H1 & H2 & H3 & _).
  eauto.
Qed.

Ltac concrete_chain_wf :=
  let h := fresh "h" in
  let p := fresh "p" in
  let Hp := fresh "Hp" in
  intros h p Hp;
  repeat (destruct h as [|h];
          [ cbn in Hp; injection Hp as <-; eexists _, _;
            (split; [reflexivity|]); (split; [reflexivity|]);
            (split; [reflexivity|]);
            let h' := fresh "h'" in
            let Hh' := fresh "Hh'" in
            intros h' Hh';
            first [ discriminate Hh' | injection Hh' as <-; reflexivity ]
          | ]);
  cbn in Hp; discriminate.

Lemma three_chain_wf : chain_wf forked_heap three_chain.
Proof. concrete_chain_wf. Qed.

Lemma main_branch_wf : chain_wf forked_heap main_branch.
Proof. concrete_chain_wf. Qed.

Lemma fork_branch_wf : chain_wf forked_heap fork_branch.
Proof. concrete_chain_wf. Qed.

(** X18. On a well-formed chain every stored entry is contained, and
    [Next] of the entry at height [h] is the entry stored at height
    [h + 1], or null for the tip. *)
Theorem Next_on_chain (heap : gmap loc CBlockIndex) (c : CChain) (h : nat)
    (p : option loc) :
  chain_wf heap c ->
  vector_size c < 2 ^ 31 ->
  c !! h = Some p ->
  Contains heap c p = Ret true
  /\ Next heap c p = Ret (default None (c !! S h))
  /\ (S h = length c -> Tip c = Ret p /\ Next heap c p = Ret None).
Proof.
  intros Hwf Hfit Hp.
  destruct (chain_wf_entry heap c h p Hwf Hp) as (a & node & -> & Hnode & Hh).
  assert (Hcont : Contains heap c (Some a) = Ret true).
  { unfold Contains. rewrite Hnode, (CChain_at_lookup c _ Hfit), Hh.
    cbn [bind]. replace (0 <=? Z.of_nat h) with true
      by (symmetry; apply Z.leb_le; lia).
    rewrite Nat2Z.id, Hp. cbn. now rewrite bool_decide_eq_true_2. }
  assert (Hlen : (h < length c)%nat) by (eapply lookup_lt_Some; eassumption).
  assert (Hnext : Next heap c (Some a) = Ret (default None (c !! S h))).
  { unfold Next. rewrite Hcont. cbn [bind mbind option_bind]. rewrite Hnode.
    unfold int_bits. rewrite Hh.
    replace (Z.of_nat h + 1 <? 2 ^ (32 - 1)) with true.
    - rewrite (CChain_at_lookup c _ Hfit).
      replace (0 <=? Z.of_nat h + 1) with true
        by (symmetry; apply Z.leb_le; lia).
      replace (Z.to_nat (Z.of_nat h + 1)) with (S h) by lia. reflexivity.
    - symmetry. apply Z.ltb_lt. unfold vector_size in Hfit.
      change (2 ^ (32 - 1)) with (2 ^ 31). lia. }
  split; [exact Hcont|]. split; [exact Hnext|].
  intros Hlast. split.
  - destruct (Genesis_Tip_nonempty c Hfit) as (g & t & _ & Ht & _ & ->).
    { intros ->. cbn in Hlen. lia. }
    rewrite last_lookup in Ht.
    replace (Nat.pred (length c)) with h in Ht by lia.
    assert (E : Some t = Some (Some a)) by (rewrite <- Ht; exact Hp).
    now injection E as ->.
  - rewrite Hnext. replace (c !! S h) with (@None (option loc));
      [reflexivity|]. symmetry. apply lookup_ge_None_2. lia.
Qed.

Lemma Next_on_chain_witness :
  Contains forked_heap three_chain (Some 2%positive) = Ret true
  /\ Next forked_heap three_chain (Some 2%positive) = Ret (Some 3%positive).
Proof.
  destruct (Next_on_chain forked_heap three_chain 1 (Some 2%positive)
              three_chain_wf) as (H1 & H2 & _).
  - vm_compute. reflexivity.
  - reflexivity.
  - split; [exact H1 | exact H2].
Defined.

(** X19. As the comment on [Height] says: on a well-formed chain
    [Height] is the height of the tip, and -1 when there is no tip; and
    [Genesis] and [Tip] are what [operator[]] returns at 0 and at
    [Height]. *)
Theorem Height_is_tip_height (heap : gmap loc CBlockIndex) (c : CChain) :
  chain_wf heap c ->
  vector_size c < 2 ^ 31 ->
  Genesis c = CChain_at c 0
  /\ Tip c = CChain_at c (Height c)
  /\ (Tip c = Ret None -> Height c = -1)
  /\ (forall a, Tip c = Ret (Some a) ->
        exists node, heap !! a = Some node /\ Height c = nHeight node).
Proof.
  intros Hwf Hfit. pose proof (Height_length c Hfit) as HH.
  destruct (decide (c = [])) as [->|Hne].
  - split; [reflexivity|]. split; [reflexivity|]. split; [reflexivity|].
    intros a [=].
  - pose proof (vector_size_pos c Hne) as Hpos.
    destruct (Genesis_Tip_nonempty c Hfit Hne) as (g & t & Hg & Ht & Eg & Et).
    destruct (CChain_at_inside c 0 Hfit) as (p0 & Hp0 & E0); [lia|].
    destruct (CChain_at_inside c (Height c) Hfit) as (p1 & Hp1 & E1); [lia|].
    rewrite last_lookup in Ht. rewrite HH in Hp1.
    replace (Z.to_nat (vector_size c - 1)) with (Nat.pred (length c)) in Hp1
      by (unfold vector_size; lia).
    assert (Eg' : Some g = Some p0) by (rewrite <- Hg; exact Hp0).
    assert (Et' : Some t = Some p1) by (rewrite <- Ht; exact Hp1).
    injection Eg' as ->. injection Et' as ->.
    rewrite Eg, Et, E0, E1.
    split; [reflexivity|]. split; [reflexivity|].
    destruct (chain_wf_entry heap _ _ _ Hwf Ht) as (a & node & -> & Hn & Hh).
    split; [discriminate|].
    intros a' [= <-]. exists node. split; [exact Hn|].
    rewrite Hh, HH. unfold vector_size in *. lia.
Qed.

Lemma Height_is_tip_height_witness :
  Tip three_chain = CChain_at three_chain (Height three_chain)
  /\ exists node, forked_heap !! 3%positive = Some node
                  /\ Height three_chain = nHeight node.
Proof.
  assert (Hfit : vector_size three_chain < 2 ^ 31) by (vm_compute; reflexivity).
  destruct (Height_is_tip_height forked_heap three_chain three_chain_wf
              Hfit) as (_ & H2 & _ & H4).
  split; [exact H2 | exact (H4 3%positive eq_refl)].
Defined.

(** *** Comparing well-formed chains *)

Lemma CChain_eq_cases (a b : CChain) :
  vector_size a < 2 ^ 64 ->
  CChain_eq a b =
    if bool_decide (length a = length b) then
      match a with
      | [] => Err UndefinedBehaviour
      | _ :: _ => Ret (bool_decide (last a = last b))
      end
    else Ret false.
Proof.
  intros Hfit. unfold CChain_eq.
  destruct (decide (length a = length b)) as [Hlen|Hlen].
  - rewrite bool_decide_eq_true_2 by assumption.
    assert (Hsz : vector_size a = vector_size b)
      by (unfold vector_size; now rewrite Hlen).
    rewrite <- Hsz, Z.eqb_refl.
    destruct a as [|x a']; [reflexivity|].
    assert (Hpos : 0 < vector_size (x :: a')) by now apply vector_size_pos.
    unfold size_t_bits. rewrite wrap_small by lia.
    destruct (vector_at_in_bounds (x :: a') (vector_size (x :: a') - 1))
      as (u & Hu & ->); [lia|].
    destruct (vector_at_in_bounds b (vector_size (x :: a') - 1))
      as (v & Hv & ->); [lia|].
    cbn [bind]. rewrite !last_lookup.
    replace (Nat.pred (length (x :: a')))
      with (Z.to_nat (vector_size (x :: a') - 1))
      by (unfold vector_size; lia).
    rewrite <- Hlen.
    replace (Nat.pred (length (x :: a')))
      with (Z.to_nat (vector_size (x :: a') - 1))
      by (unfold vector_size; lia).
    rewrite Hu, Hv. f_equal.
    apply bool_decide_ext. split; [intros ->; reflexivity | intros [= ->]; reflexivity].
  - rewrite bool_decide_eq_false_2 by assumption.
    replace (vector_size a =? vector_size b) with false; [reflexivity|].
    symmetry. apply Z.eqb_neq. unfold vector_size. lia.
Qed.

Lemma chain_wf_below heap (c : CChain) (h : nat) (a : loc)
    (node : CBlockIndex) :
  chain_wf heap c -> c !! S h = Some (Some a) -> heap !! a = Some node ->
  c !! h = Some (pprev node).
Proof.
  intros Hwf Hp Hnode.
  destruct (Hwf (S h) _ Hp) as (a' & node' & [= <-] & Hn' & _ & Hprev).
  rewrite Hnode in Hn'. injection Hn' as <-. now apply Hprev.
Qed.

Lemma chain_wf_same_tip heap (a b : CChain) :
  chain_wf heap a -> chain_wf heap b ->
  length a = length b -> last a = last b -> a = b.
Proof.
  intros Ha Hb Hlen Hlast.
  assert (Hdown : forall k i, (i + k = Nat.pred (length a))%nat ->
            a !! i = b !! i).
  { induction k as [|k IH]; intros i Hi.
    - rewrite !last_lookup in Hlast. rewrite <- Hlen in Hlast.
      replace i with (Nat.pred (length a)) by lia. exact Hlast.
    - assert (E : a !! S i = b !! S i) by (apply IH; lia).
      destruct (a !! S i) as [p|] eqn:Hp.
      + destruct (chain_wf_entry heap a _ _ Ha Hp) as (x & node & -> & Hn & _).
        rewrite (chain_wf_below heap a i x node Ha Hp Hn).
        symmetry. now apply (chain_wf_below heap b i x node Hb).
      + apply lookup_ge_None_1 in Hp. lia. }
  apply list_eq. intros i.
  destruct (Nat.lt_ge_cases i (length a)) as [Hi|Hi].
  - apply (Hdown (Nat.pred (length a) - i)%nat). lia.
  - rewrite !lookup_ge_None_2; [reflexivity | lia | lia].
Qed.

(** X20. The comparison of two chains looks at the lengths and the tips
    only.  On well-formed chains over the same entries that is enough:
    for chains that are not empty it returns true exactly when the two
    chains are the same at every height. *)
Theorem CChain_eq_decides_equality (heap : gmap loc CBlockIndex)
    (a b : CChain) :
  chain_wf heap a -> chain_wf heap b ->
  vector_size a < 2 ^ 64 -> a <> [] ->
  exists r, CChain_eq a b = Ret r /\ (r = true <-> a = b).
Proof.
  intros Ha Hb Hfit Hne. rewrite (CChain_eq_cases a b Hfit).
  destruct (decide (length a = length b)) as [Hlen|Hlen].
  - rewrite bool_decide_eq_true_2 by assumption.
    destruct a as [|x a']; [contradiction|].
    eexists. split; [reflexivity|].
    rewrite bool_decide_eq_true. split.
    + intros Hlast. now apply (chain_wf_same_tip heap).
    + intros <-. reflexivity.
  - rewrite bool_decide_eq_false_2 by assumption.
    exists false. split; [reflexivity|].
    split; [discriminate | intros <-; contradiction].
Qed.

Lemma CChain_eq_decides_equality_witness :
  exists r,
    CChain_eq main_branch fork_branch = Ret r
    /\ (r = true <-> main_branch = fork_branch).
Proof.
  apply (CChain_eq_decides_equality forked_heap).
  - exact main_branch_wf.
  - exact fork_branch_wf.
  - vm_compute. reflexivity.
  - discriminate.
Defined.

(** ** More on the median time past *)

Lemma sorted_around (s : list Z) (m : nat) (t : Z) :
  Sorted Z.le s -> s !! m = Some t ->
  Forall (fun x => x <= t) (take m s) /\ Forall (fun x => t <= x) (drop (S m) s).
Proof.
  intros Hs Ht. apply (Sorted_StronglySorted Z.le) in Hs.
  rewrite <- (take_drop_middle s m t Ht) in Hs.
  split.
  - apply Forall_forall. intros x Hx.
    apply (StronglySorted_app_1_elem_of Z.le _ _ x t Hs Hx). left.
  - apply StronglySorted_app_1_r in Hs. now apply StronglySorted_inv in Hs.
Qed.

(** X21. The value [GetMedianTimePast] returns splits the block times
    it looked at: it is one of them, [count / 2] of the others are at
    most as large, and the rest are at least as large. *)
Theorem GetMedianTimePast_splits (heap : gmap loc CBlockIndex) (this : loc)
    (pmedian : list Z) (nodes : list CBlockIndex) :
  length pmedian = nMedianTimeSpan ->
  ancestry heap nMedianTimeSpan (Some this) = Some nodes ->
  exists t below above,
    GetMedianTimePast heap this pmedian = Ret t
    /\ GetBlockTime <$> nodes ≡ₚ below ++ t :: above
    /\ length below = (length nodes / 2)%nat
    /\ Forall (fun x => x <= t) below
    /\ Forall (fun x => t <= x) above.
Proof.
  intros Hlen Hanc.
  destruct (GetMedianTimePast_eq heap this pmedian nodes Hlen Hanc)
    as (t & Ht & Hrun).
  set (s := merge_sort Z.le (reverse (GetBlockTime <$> nodes))) in *.
  assert (Hs : Sorted Z.le s) by (apply Sorted_merge_sort; apply _).
  destruct (sorted_around s _ t Hs Ht) as [Hlo Hhi].
  exists t, (take (length nodes / 2) s), (drop (S (length nodes / 2)) s).
  split; [exact Hrun|]. split; [|split; [|split; assumption]].
  - rewrite (take_drop_middle s _ t Ht). unfold s.
    rewrite merge_sort_Permutation. symmetry. apply reverse_Permutation.
  - rewrite length_take. apply lookup_lt_Some in Ht. lia.
Qed.

Lemma GetMedianTimePast_splits_witness :
  exists t below above,
    GetMedianTimePast example_heap example_tip (replicate 11 0) = Ret t
    /\ GetBlockTime <$> example_nodes ≡ₚ below ++ t :: above
    /\ length below = (length example_nodes / 2)%nat
    /\ Forall (fun x => x <= t) below
    /\ Forall (fun x => t <= x) above.
Proof.
  apply (GetMedianTimePast_splits example_heap example_tip (replicate 11 0)
           example_nodes); reflexivity.
Defined.

Lemma sorted_pair (s : list Z) (x y : Z) :
  Sorted Z.le s -> s ≡ₚ [x; y] -> s !! 1%nat = Some (Z.max x y).
Proof.
  intros Hs Hp. symmetry in Hp.
  apply Permutation_length_2_inv in Hp as [-> | ->]; cbn;
    apply Sorted_inv in Hs as [_ Hs]; apply HdRel_inv in Hs; f_equal; lia.
Qed.

(** X22. Near the start of a chain: for an entry without a parent
    [GetMedianTimePast] is the entry's own time, and for an entry whose
    parent has no parent it is the later of the two times, the upper of
    the two middle values. *)
Theorem GetMedianTimePast_short_chain (heap : gmap loc CBlockIndex)
    (this : loc) (node : CBlockIndex) (pmedian : list Z) :
  length pmedian = nMedianTimeSpan ->
  heap !! this = Some node ->
  (pprev node = None ->
     GetMedianTimePast heap this pmedian = Ret (GetBlockTime node))
  /\ (forall p parent,
        pprev node = Some p -> heap !! p = Some parent ->
        pprev parent = None ->
        GetMedianTimePast heap this pmedian
        = Ret (Z.max (GetBlockTime node) (GetBlockTime parent))).
Proof.
  intros Hlen Hnode. split.
  - intros Hroot.
    assert (Hanc : ancestry heap nMedianTimeSpan (Some this) = Some [node]).
    { unfold nMedianTimeSpan. cbn [ancestry]. rewrite Hnode. cbn.
      now rewrite Hroot. }
    destruct (GetMedianTimePast_eq heap this pmedian _ Hlen Hanc)
      as (t & Ht & ->).
    cbn in Ht. now injection Ht as <-.
  - intros p parent Hp Hparent Hroot.
    assert (Hanc : ancestry heap nMedianTimeSpan (Some this)
                   = Some [node; parent]).
    { unfold nMedianTimeSpan. cbn [ancestry]. rewrite Hnode. cbn.
      rewrite Hp, Hparent. cbn. now rewrite Hroot. }
    destruct (GetMedianTimePast_eq heap this pmedian _ Hlen Hanc)
      as (t & Ht & ->).
    change (length [node; parent] / 2)%nat with 1%nat in Ht.
    change (GetBlockTime <$> [node; parent])
      with [GetBlockTime node; GetBlockTime parent] in Ht.
    rewrite (sorted_pair _ (GetBlockTime node) (GetBlockTime parent)) in Ht.
    + now injection Ht as <-.
    + apply Sorted_merge_sort; apply _.
    + rewrite merge_sort_Permutation.
      apply (reverse_Permutation [GetBlockTime node; GetBlockTime parent]).
Qed.

Lemma GetMedianTimePast_short_chain_witness :
  GetMedianTimePast two_block_heap 2%positive (replicate 11 0)
  = Ret (Z.max (GetBlockTime child_node) (GetBlockTime genesis_node)).
Proof.
  apply (proj2 (GetMedianTimePast_short_chain two_block_heap 2%positive
                  child_node (replicate 11 0) eq_refl eq_refl)
           1%positive genesis_node); reflexivity.
Defined.

(** ** Printing an entry *)

(** X23. [ToString] returns a string exactly when the proof-of-stake
    detail is set and the entry has a block hash to print, in whichever
    order the arguments are evaluated, and the string is then the format
    of the entry's values.  With the hash and without the detail the
    assertion of [IsProofOfStake] stops the call; with the detail and
    without the hash it dereferences a null pointer; with neither, it is
    the one or the other according to which argument is evaluated
    first. *)
Theorem ToString_returns {string : Type}
    (strprintf : ToString_args -> string) (this : CBlockIndex) :
  (forall order,
     (exists s, ToString strprintf order this = Ret s)
     <-> POSDetailSet this = true /\ phashBlock this <> None)
  /\ (forall order h,
        POSDetailSet this = true -> phashBlock this = Some h ->
        ToString strprintf order this
        = Ret (strprintf
                 (mkToStringArgs (pprev this) (nHeight this) (nMint this)
                    (nMoneySupply this) (GeneratedStakeModifier this)
                    (GetStakeEntropyBit this) (pos_bit this)
                    (nStakeModifier this) (hashProof this)
                    (prevoutStake this) (nStakeTime this)
                    (hashMerkleRoot this) h)))
  /\ (forall order h,
        POSDetailSet this = false -> phashBlock this = Some h ->
        ToString strprintf order this = Err AssertionFailed)
  /\ (forall order,
        POSDetailSet this = true -> phashBlock this = None ->
        ToString strprintf order this = Err UndefinedBehaviour)
  /\ (POSDetailSet this = false -> phashBlock this = None ->
        ToString strprintf StakeStatusFirst this = Err AssertionFailed
        /\ ToString strprintf BlockHashFirst this = Err UndefinedBehaviour).
Proof.
  unfold ToString, IsProofOfStake, GetBlockHash, pos_bit.
  destruct (POSDetailSet this), (phashBlock this) as [h|];
    rewrite ?bool_decide_eq_true_2, ?bool_decide_eq_false_2 by
      (reflexivity || discriminate); cbn [assert bind].
  - split; [intros order; split;
              [intros _; split; [reflexivity | discriminate]
              | intros _; destruct order; now eexists]|].
    split; [intros order h' _ [= <-]; now destruct order|].
    split; [discriminate|]. split; discriminate.
  - split; [intros order; split;
              [intros [s Hs]; destruct order; discriminate
              | intros [_ H]; now contradiction H]|].
    split; [discriminate|]. split; [discriminate|].
    split; [intros order _ _; now destruct order | discriminate].
  - split; [intros order; split;
              [intros [s Hs]; destruct order; discriminate
              | intros [[=] _]]|].
    split; [discriminate|].
    split; [intros order h' _ _; now destruct order|].
    split; discriminate.
  - split; [intros order; split;
              [intros [s Hs]; destruct order; discriminate
              | intros [[=] _]]|].
    split; [discriminate|]. split; [discriminate|].
    split; [discriminate | intros _ _; now split].
Qed.

(** ** The version prefix of a record *)

(** X24. The serialization type decides one thing only: without the
    hash flag the stream starts with the version parameter, with the flag
    it does not, and what follows is the same in both. *)
Theorem Serialize_version_prefix {tok : Type} (W : Wire tok)
    (SER_GETHASH nType nTypeHash nVersionPar nVersionPar' : Z)
    (this : CDiskBlockIndex) :
  Z.land nType SER_GETHASH = 0 ->
  Z.land nTypeHash SER_GETHASH <> 0 ->
  exists w this',
    Serialize W SER_GETHASH nTypeHash nVersionPar' this = Ret (w, this')
    /\ Serialize W SER_GETHASH nType nVersionPar this
       = Ret (put (VARINT W) nVersionPar ++ w, this').
Proof.
  intros Hdisk Hhash.
  assert (Hd : truthy (Z.land nType SER_GETHASH) = false)
    by (unfold truthy; now rewrite Hdisk).
  assert (Hh : truthy (Z.land nTypeHash SER_GETHASH) = true)
    by (unfold truthy; now apply negb_true_iff, Z.eqb_neq).
  unfold Serialize. rewrite Hd, Hh.
  cbn [negb]. fields. rewrite IsProofOfStake_detail_set. cbn [bind].
  eexists _, _. split; [reflexivity|]. f_equal. f_equal.
  destruct (truthy (Z.land (nStatus (base this))
                      (Z.lor BLOCK_HAVE_DATA BLOCK_HAVE_UNDO)));
  destruct (truthy (Z.land (nStatus (base this)) BLOCK_HAVE_DATA));
  destruct (truthy (Z.land (nStatus (base this)) BLOCK_HAVE_UNDO));
  destruct (pos_bit (base this));
  cbn [app]; rewrite <- ?app_assoc; reflexivity.
Qed.

Lemma Serialize_version_prefix_witness :
  exists w this',
    Serialize token_wire SER_GETHASH_value SER_GETHASH_value 0
      CDiskBlockIndex_default = Ret (w, this')
    /\ Serialize token_wire SER_GETHASH_value SER_DISK_value 7
         CDiskBlockIndex_default
       = Ret (put (VARINT token_wire) 7 ++ w, this').
Proof.
  apply (Serialize_version_prefix token_wire SER_GETHASH_value SER_DISK_value
           SER_GETHASH_value 7 0 CDiskBlockIndex_default).
  - reflexivity.
  - discriminate.
Defined.

(** ** Writing a record *)

(** X25. Writing a record always returns, and it marks the record: the
    detail flag is set on the record that was written and nothing else
    changes, so [IsProofOfStake] returns on it afterwards even where it
    stopped at its assertion before. *)
Theorem Serialize_sets_detail_flag {tok : Type} (W : Wire tok)
    (SER_GETHASH nType nVersionPar : Z) (this : CDiskBlockIndex) :
  exists w this',
    Serialize W SER_GETHASH nType nVersionPar this = Ret (w, this')
    /\ this' = upd (set_POSDetailSet true) this
    /\ POSDetailSet (base this') = true
    /\ upd (set_POSDetailSet (POSDetailSet (base this))) this' = this
    /\ IsProofOfStake (base this') = Ret (pos_bit (base this)).
Proof.
  destruct (Serialize_returns W SER_GETHASH nType nVersionPar this)
    as [w Hw].
  exists w, (upd (set_POSDetailSet true) this).
  split; [exact Hw|]. split; [reflexivity|]. split; [reflexivity|].
  split; [|reflexivity].
  destruct this as [b bh hp]. now destruct b.
Qed.

(** X26. The stream determines the record: two records that are written
    to the same stream are read back as the same record, so they agree
    on every field that is on the wire, in particular on the header they
    hash. *)
Theorem Serialize_injective {tok : Type} (W : Wire tok)
    (SER_GETHASH nType nVersionPar : Z) (r1 r2 : CDiskBlockIndex)
    (w : list tok) (r1' r2' : CDiskBlockIndex) :
  wire_ok W ->
  Serialize W SER_GETHASH nType nVersionPar r1 = Ret (w, r1') ->
  Serialize W SER_GETHASH nType nVersionPar r2 = Ret (w, r2') ->
  (forall t, decoded r1 t = decoded r2 t)
  /\ same_wire_fields (base r1) (base r2)
  /\ header_of r1 = header_of r2
  /\ blockHash r1 = blockHash r2.
Proof.
  intros HW H1 H2.
  assert (Hdec : forall t, decoded r1 t = decoded r2 t).
  { intros t.
    pose proof (Unserialize_Serialize W SER_GETHASH HW nType nVersionPar
                  r1 t w r1' [] H1) as E1.
    pose proof (Unserialize_Serialize W SER_GETHASH HW nType nVersionPar
                  r2 t w r2' [] H2) as E2.
    congruence. }
  split; [exact Hdec|].
  pose proof (Hdec CDiskBlockIndex_default) as E.
  assert (Hz : forall f : CDiskBlockIndex -> Z,
            f (decoded r1 CDiskBlockIndex_default)
            = f (decoded r2 CDiskBlockIndex_default))
    by (intros f; now rewrite E).
  split; [|split].
  - unfold same_wire_fields.
    repeat split;
      [ exact (Hz (fun d => nHeight (base d)))
      | exact (Hz (fun d => nStatus (base d)))
      | exact (Hz (fun d => nTx (base d)))
      | exact (Hz (fun d => nMint (base d)))
      | exact (Hz (fun d => nMoneySupply (base d)))
      | exact (Hz (fun d => nFlags (base d)))
      | exact (Hz (fun d => nStakeModifier (base d)))
      | exact (Hz (fun d => hashProof (base d)))
      | exact (Hz (fun d => nVersion (base d)))
      | exact (Hz (fun d => hashMerkleRoot (base d)))
      | exact (Hz (fun d => nTime (base d)))
      | exact (Hz (fun d => nBits (base d)))
      | exact (Hz (fun d => nNonce (base d))) ].
  - exact (f_equal header_of E).
  - exact (Hz blockHash).
Qed.

Lemma Serialize_injective_witness :
  same_wire_fields child_node (set_POSDetailSet false child_node)
  /\ header_of child_record = header_of unmarked_record.
Proof.
  destruct (Serialize_injective token_wire SER_GETHASH_value SER_DISK_value 1
              child_record unmarked_record child_stream child_record
              child_record token_wire_ok eq_refl eq_refl)
    as (_ & H2 & H3 & _).
  split; [exact H2 | exact H3].
Defined.
